(** * Resilient e-mail delivery engine: a shallow embedding

    The development follows the JavaScript sources of the service:

    - [src/services/CircuitBreaker.js]   (module [CircuitBreaker])
    - [src/utils/IdempotencyManager.js]  (module [IdempotencyManager])
    - [src/services/RateLimiter.js]      (module [RateLimiter])
    - [src/services/EmailQueue.js]       (module [EmailQueue])
    - [src/services/EmailService.js]     (module [EmailService])

    Conventions shared by all modules.

    - Instants and durations are integers ([Z]), in milliseconds unless a
      definition says otherwise.  [Date.now()] is an explicit argument
      [now]; a handler that runs synchronously reads the clock once.
    - [new Date().toISOString()] is kept as the instant it renders.
    - A JavaScript [Map] keyed by strings is a [gmap string _]; an object
      that is mutated in place is written back under its key.
    - A thrown exception is a value of [Completion]; the mutation done
      before the throw is kept in the returned state.
    - Logging has no effect on the state and is left out. *)

From Stdlib Require Import ZArith Lia.
From stdpp Require Import gmap strings pretty list fin_maps.

(** ** JavaScript values used by the service *)

(** The [Error] objects thrown by transports and by the breaker.  The
    fields [retryable] and [retryAfter] may be absent ([undefined]). *)
Record JsError := mkError {
  message : string;
  code : option string;
  retryable : option bool;
  retryAfter : option Z;
  stack : string
}.

(** [error.retryable === false] *)
Definition retryable_is_false (e : JsError) : bool :=
  match retryable e with
  | Some false => true
  | _ => false
  end.

(** Truthiness of an optional number: [undefined], [0] are falsy. *)
Definition truthy (v : option Z) : bool :=
  match v with
  | Some n => negb (n =? 0)%Z
  | None => false
  end.

(** Plain data stored in result objects.  An object literal is a finite
    map from property names to values; a nested object is kept as the
    list of its properties. *)
#[warnings="-register-all"]
Inductive JsVal :=
| VUndefined
| VNum (n : Z)
| VStr (s : string)
| VBool (b : bool)
| VObj (fields : list (string * JsVal)).

Abbreviation JsObject := (gmap string JsVal).

(** [{...a, ...b}]: properties of [b] win. *)
Definition spread (a b : JsObject) : JsObject := b ∪ a.

Definition opt_str (o : option string) : JsVal :=
  match o with
  | Some s => VStr s
  | None => VUndefined
  end.

(** A settled call: either a returned value or a thrown error. *)
Inductive Completion (A : Type) :=
| Return (a : A)
| Throw (e : JsError).
Arguments Return {A} a.
Arguments Throw {A} e.

(** [Math.ceil(a / d)] for integers [a] and a positive integer [d]. *)
Definition ceil_div (a d : Z) : Z := (- ((- a) / d))%Z.

(** ** CircuitBreaker.js *)
Module CircuitBreaker.
Local Open Scope Z_scope.

Inductive State := CLOSED | OPEN | HALF_OPEN.

Record Config := mkConfig {
  failureThreshold : Z;
  successThreshold : Z;
  timeout : Z
}.

(** Defaults of the constructor (no environment overrides). *)
Definition defaultConfig : Config :=
  {| failureThreshold := 5; successThreshold := 2; timeout := 30000 |}.

Record Breaker := mkBreaker {
  config : Config;
  state : State;
  failureCount : Z;
  successCount : Z;
  lastFailureTime : option Z;
  nextAttemptTime : option Z
}.

(** [new CircuitBreaker(name, config)] *)
Definition create (c : Config) : Breaker :=
  {| config := c; state := CLOSED; failureCount := 0; successCount := 0;
     lastFailureTime := None; nextAttemptTime := None |}.

(** [_setState(newState)] *)
Definition _setState (now : Z) (newState : State) (b : Breaker) : Breaker :=
  match newState with
  | CLOSED =>
      {| config := config b; state := CLOSED; failureCount := 0;
         successCount := 0; lastFailureTime := lastFailureTime b;
         nextAttemptTime := None |}
  | OPEN =>
      {| config := config b; state := OPEN; failureCount := failureCount b;
         successCount := 0; lastFailureTime := lastFailureTime b;
         nextAttemptTime := Some (now + timeout (config b)) |}
  | HALF_OPEN =>
      {| config := config b; state := HALF_OPEN;
         failureCount := failureCount b; successCount := 0;
         lastFailureTime := lastFailureTime b;
         nextAttemptTime := nextAttemptTime b |}
  end.

(** [_onSuccess()] *)
Definition _onSuccess (now : Z) (b : Breaker) : Breaker :=
  match state b with
  | HALF_OPEN =>
      let b1 :=
        {| config := config b; state := state b;
           failureCount := failureCount b;
           successCount := successCount b + 1;
           lastFailureTime := lastFailureTime b;
           nextAttemptTime := nextAttemptTime b |} in
      if successThreshold (config b1) <=? successCount b1
      then _setState now CLOSED b1
      else b1
  | CLOSED =>
      {| config := config b; state := state b; failureCount := 0;
         successCount := successCount b;
         lastFailureTime := lastFailureTime b;
         nextAttemptTime := nextAttemptTime b |}
  | OPEN => b
  end.

(** [_onFailure(error)]: the counter and [lastFailureTime] are updated
    first, then the [retryable === false] guard returns early. *)
Definition _onFailure (now : Z) (error : JsError) (b : Breaker) : Breaker :=
  let b1 :=
    {| config := config b; state := state b;
       failureCount := failureCount b + 1;
       successCount := successCount b;
       lastFailureTime := Some now;
       nextAttemptTime := nextAttemptTime b |} in
  if retryable_is_false error then b1
  else
    match state b1 with
    | HALF_OPEN => _setState now OPEN b1
    | CLOSED =>
        if failureThreshold (config b1) <=? failureCount b1
        then _setState now OPEN b1
        else b1
    | OPEN => b1
    end.

(** [reset()] and [forceOpen()] *)
Definition reset (now : Z) (b : Breaker) : Breaker := _setState now CLOSED b.
Definition forceOpen (now : Z) (b : Breaker) : Breaker := _setState now OPEN b.

(** [Date.now() < this.nextAttemptTime]; a [null] deadline compares as 0. *)
Definition before_next_attempt (now : Z) (b : Breaker) : bool :=
  match nextAttemptTime b with
  | Some t => now <? t
  | None => now <? 0
  end.

(** The error thrown while the circuit is open; [retryAfter] is in
    seconds: [Math.ceil((nextAttemptTime - Date.now()) / 1000)]. *)
Definition openError (now : Z) (b : Breaker) : JsError :=
  {| message := "Circuit breaker is OPEN";
     code := Some "CIRCUIT_BREAKER_OPEN";
     retryable := None;
     retryAfter :=
       Some (ceil_div (default 0 (nextAttemptTime b) - now) 1000);
     stack := "" |}.

(** What the wrapped function did: the instant at which its promise
    settled and how it settled. *)
Record Settled (R : Type) := mkSettled {
  settledAt : Z;
  outcome : Completion R
}.
Arguments mkSettled {R} settledAt outcome.
Arguments settledAt {R} s.
Arguments outcome {R} s.

Section Execute.
(** [W] is the state of whatever the wrapped function acts on (the
    transport); [fn] is [fn(...args)] as a state transformer. *)
Context {W R : Type}.

(** The check at the head of [execute]: an open circuit refuses the call
    until [nextAttemptTime], then lets it through half-open. *)
Definition guard (now : Z) (b : Breaker) : Completion Breaker :=
  match state b with
  | OPEN =>
      if before_next_attempt now b
      then Throw (openError now b)
      else Return (_setState now HALF_OPEN b)
  | _ => Return b
  end.

(** [execute(fn, ...args)] entered at instant [now].  A refused call
    settles at once; otherwise the promise settles when [fn] does. *)
Definition execute (now : Z) (fn : W -> Settled R * W)
    (b : Breaker) (w : W) : Settled R * Breaker * W :=
  match guard now b with
  | Throw e => ({| settledAt := now; outcome := Throw e |}, b, w)
  | Return b1 =>
      let '(s, w') := fn w in
      match outcome s with
      | Return result => (s, _onSuccess (settledAt s) b1, w')
      | Throw error => (s, _onFailure (settledAt s) error b1, w')
      end
  end.
End Execute.

(** [canExecute()] *)
Definition canExecute (now : Z) (b : Breaker) : bool :=
  match state b with
  | CLOSED | HALF_OPEN => true
  | OPEN => negb (before_next_attempt now b)
  end.

(** Feeding a list of failures to [_onFailure], all at instant [now]. *)
Definition record_failures (now : Z) (errors : list JsError) (b : Breaker)
    : Breaker :=
  foldl (fun acc e => _onFailure now e acc) b errors.

(** Sample errors, as the mock transports build them. *)
Definition temporaryFailure : JsError :=
  {| message := "Temporary service unavailable";
     code := Some "TEMPORARY_FAILURE";
     retryable := Some true; retryAfter := None; stack := "" |}.
Definition invalidEmail : JsError :=
  {| message := "Primary provider: Invalid email format";
     code := Some "INVALID_EMAIL";
     retryable := Some false; retryAfter := None; stack := "" |}.
Definition authFailed : JsError :=
  {| message := "Authentication failed";
     code := Some "AUTH_FAILED";
     retryable := Some false; retryAfter := None; stack := "" |}.

(** A breaker that tripped at instant 1000 and, probed at 40000 after its
    pause of 30 s, let the call through half-open. *)
Definition trippedBreaker : Breaker :=
  record_failures 1000
    [temporaryFailure; temporaryFailure; temporaryFailure; temporaryFailure;
     temporaryFailure]
    (create defaultConfig).
Definition probingBreaker : Breaker := _setState 40000 HALF_OPEN trippedBreaker.

(** The rule of the specification for the half-open state: any failure
    sends the breaker back to open with a new deadline. *)
Definition any_failure_reopens (now : Z) (error : JsError) (b : Breaker)
    : Prop :=
  state b = HALF_OPEN ->
  state (_onFailure now error b) = OPEN /\
  nextAttemptTime (_onFailure now error b) = Some (now + timeout (config b)).

(** [getTimeUntilNextAttempt()]: milliseconds left while the circuit is
    open and has a (truthy) deadline, [null] otherwise. *)
Definition getTimeUntilNextAttempt (now : Z) (b : Breaker) : option Z :=
  match state b with
  | OPEN =>
      if truthy (nextAttemptTime b) then
        let timeRemaining := default 0 (nextAttemptTime b) - now in
        Some (if 0 <? timeRemaining then timeRemaining else 0)
      else None
  | _ => None
  end.

(** A history of settled calls seen by one breaker: each entry is the
    instant at which the call settled and the error it threw, if any. *)
Definition feed (history : list (Z * option JsError)) (b : Breaker)
    : Breaker :=
  foldl (fun acc ev =>
           match snd ev with
           | Some error => _onFailure (fst ev) error acc
           | None => _onSuccess (fst ev) acc
           end) b history.

(** All entries are failures that count ([retryable] is not [false]). *)
Definition counted_failures (history : list (Z * option JsError)) : Prop :=
  Forall (fun ev => exists error,
            snd ev = Some error /\ retryable_is_false error = false) history.

Definition successes (history : list (Z * option JsError)) : Prop :=
  Forall (fun ev => snd ev = None) history.

(** What every breaker built by [create] and driven through its methods
    satisfies: an open circuit has a deadline, the success counter is
    only used while half-open, and no counter is negative. *)
Definition well_formed (b : Breaker) : Prop :=
  (state b = OPEN -> is_Some (nextAttemptTime b)) /\
  (state b <> HALF_OPEN -> successCount b = 0) /\
  0 <= failureCount b /\ 0 <= successCount b.

End CircuitBreaker.

(** ** IdempotencyManager.js *)
Module IdempotencyManager.
Local Open Scope Z_scope.

Inductive Status := pending | completed | failed.

(** An entry of the cache.  [set] builds the first five fields; [update]
    and [incrementAttempts] add the optional ones. *)
Record Entry := mkEntry {
  idempotencyKey : string;
  result : JsObject;
  status : Status;
  createdAt : Z;
  expiresAt : Z;
  updatedAt : option Z;
  attempts : option Z;
  lastAttemptAt : option Z
}.

Record Manager := mkManager {
  cache : gmap string Entry;
  ttl : Z
}.

(** [new IdempotencyManager()] with the default TTL of 24 hours. *)
Definition create : Manager := {| cache := ∅; ttl := 86400000 |}.

Definition with_cache (m : Manager) (c : gmap string Entry) : Manager :=
  {| cache := c; ttl := ttl m |}.

Definition keyRequired : JsError :=
  {| message := "Idempotency key is required"; code := None;
     retryable := None; retryAfter := None; stack := "" |}.
Definition keyNotFound : JsError :=
  {| message := "Idempotency key not found"; code := None;
     retryable := None; retryAfter := None; stack := "" |}.

(** [!idempotencyKey] on a string *)
Definition no_key (key : string) : bool := bool_decide (key = "").

(** [get(idempotencyKey)]: an entry with [Date.now() > entry.expiresAt]
    is deleted and [null] is returned. *)
Definition get (now : Z) (key : string) (m : Manager)
    : Completion (option Entry) * Manager :=
  if no_key key then (Throw keyRequired, m)
  else
    match cache m !! key with
    | None => (Return None, m)
    | Some entry =>
        if expiresAt entry <? now
        then (Return None, with_cache m (delete key (cache m)))
        else (Return (Some entry), m)
    end.

(** [set(idempotencyKey, result, status)] *)
Definition set (now : Z) (key : string) (res : JsObject) (st : Status)
    (m : Manager) : Completion unit * Manager :=
  if no_key key then (Throw keyRequired, m)
  else
    let entry :=
      {| idempotencyKey := key; result := res; status := st;
         createdAt := now; expiresAt := now + ttl m;
         updatedAt := None; attempts := None; lastAttemptAt := None |} in
    (Return (), with_cache m (<[key := entry]> (cache m))).

(** [markAsPending(idempotencyKey, metadata)] *)
Definition markAsPending (now : Z) (key : string) (metadata : JsObject)
    (m : Manager) : Completion unit * Manager :=
  set now key
    (spread
       (list_to_map [("status", VStr "pending"); ("startedAt", VNum now);
                     ("attempts", VNum 0)])
       metadata)
    pending m.

(** [markAsCompleted(idempotencyKey, result)] *)
Definition markAsCompleted (now : Z) (key : string) (res : JsObject)
    (m : Manager) : Completion unit * Manager :=
  set now key (<["completedAt" := VNum now]> res) completed m.

(** [markAsFailed(idempotencyKey, error)] *)
Definition markAsFailed (now : Z) (key : string) (error : JsError)
    (m : Manager) : Completion unit * Manager :=
  set now key
    (list_to_map
       [("error", VObj [("message", VStr (message error));
                        ("code", opt_str (code error));
                        ("stack", VStr (stack error))]);
        ("failedAt", VNum now)])
    failed m.

(** [update(idempotencyKey, updates)] *)
Definition update (now : Z) (key : string) (updates : JsObject)
    (m : Manager) : Completion unit * Manager :=
  match get now key m with
  | (Throw e, m1) => (Throw e, m1)
  | (Return None, m1) => (Throw keyNotFound, m1)
  | (Return (Some existing), m1) =>
      let updatedEntry :=
        {| idempotencyKey := idempotencyKey existing;
           result := spread (result existing) updates;
           status := status existing;
           createdAt := createdAt existing;
           expiresAt := expiresAt existing;
           updatedAt := Some now;
           attempts := attempts existing;
           lastAttemptAt := lastAttemptAt existing |} in
      (Return (), with_cache m1 (<[key := updatedEntry]> (cache m1)))
  end.

(** [delete(idempotencyKey)] *)
Definition delete_entry (key : string) (m : Manager) : bool * Manager :=
  (bool_decide (is_Some (cache m !! key)),
   with_cache m (delete key (cache m))).

(** [cleanupExpired()]: one pass over the entries; every entry with
    [now > entry.expiresAt] is deleted and counted. *)
Definition sweep_step (now : Z) (key : string) (entry : Entry)
    (acc : gmap string Entry * Z) : gmap string Entry * Z :=
  if expiresAt entry <? now
  then (delete key (fst acc), snd acc + 1)
  else acc.

Definition cleanupExpired (now : Z) (m : Manager) : Z * Manager :=
  let r := map_fold (sweep_step now) (cache m, 0) (cache m) in
  (snd r, with_cache m (fst r)).

(** [clear()] *)
Definition clear (m : Manager) : Manager := with_cache m ∅.

(** [existing.attempts || existing.result?.attempts || 0]; only numbers
    are ever stored under these names. *)
Definition currentAttempts (existing : Entry) : Z :=
  if truthy (attempts existing) then default 0 (attempts existing)
  else
    match result existing !! "attempts" with
    | Some (VNum n) => n
    | _ => 0
    end.

(** [incrementAttempts(idempotencyKey)] *)
Definition incrementAttempts (now : Z) (key : string) (m : Manager)
    : Completion Z * Manager :=
  match get now key m with
  | (Throw e, m1) => (Throw e, m1)
  | (Return None, m1) => (Throw keyNotFound, m1)
  | (Return (Some existing), m1) =>
      let newAttempts := currentAttempts existing + 1 in
      let updatedEntry :=
        {| idempotencyKey := idempotencyKey existing;
           result := <["attempts" := VNum newAttempts]> (result existing);
           status := status existing;
           createdAt := createdAt existing;
           expiresAt := expiresAt existing;
           updatedAt := updatedAt existing;
           attempts := Some newAttempts;
           lastAttemptAt := Some now |} in
      (Return newAttempts,
       with_cache m1 (<[key := updatedEntry]> (cache m1)))
  end.

(** The entries that the sweep at instant [now] must remove. *)
Definition expired (now : Z) (entry : Entry) : Prop := expiresAt entry < now.

#[export] Instance expired_dec now entry : Decision (expired now entry).
Proof. unfold expired. apply _. Defined.

Definition terminal (entry : Entry) : Prop :=
  status entry = completed \/ status entry = failed.



(** Sample data: a delivery recorded at instant 1000 under the key [r1],
    and a second outcome for the same key. *)
Definition firstOutcome : JsObject :=
  list_to_map [("status", VStr "sent"); ("messageId", VStr "m-1")].
Definition secondOutcome : JsObject :=
  list_to_map [("status", VStr "sent"); ("messageId", VStr "m-2")].
Definition deliveredOnce : Manager :=
  snd (markAsCompleted 1000 "r1" firstOutcome create).

(** [getStats()] *)
Record Stats := mkStats {
  total : Z;
  pendingCount : Z;
  completedCount : Z;
  failedCount : Z;
  expiredCount : Z
}.

(** The body of [entries.forEach] in [getStats]. *)
Definition count_entry (now : Z) (entry : Entry) (stats : Stats) : Stats :=
  if expiresAt entry <? now then
    {| total := total stats; pendingCount := pendingCount stats;
       completedCount := completedCount stats;
       failedCount := failedCount stats;
       expiredCount := expiredCount stats + 1 |}
  else
    match status entry with
    | pending =>
        {| total := total stats; pendingCount := pendingCount stats + 1;
           completedCount := completedCount stats;
           failedCount := failedCount stats;
           expiredCount := expiredCount stats |}
    | completed =>
        {| total := total stats; pendingCount := pendingCount stats;
           completedCount := completedCount stats + 1;
           failedCount := failedCount stats;
           expiredCount := expiredCount stats |}
    | failed =>
        {| total := total stats; pendingCount := pendingCount stats;
           completedCount := completedCount stats;
           failedCount := failedCount stats + 1;
           expiredCount := expiredCount stats |}
    end.

Definition getStats (now : Z) (m : Manager) : Stats :=
  map_fold (fun _ entry stats => count_entry now entry stats)
    {| total := Z.of_nat (size (cache m)); pendingCount := 0;
       completedCount := 0; failedCount := 0; expiredCount := 0 |}
    (cache m).

(** [getAllEntries()], up to the order of the entries. *)
Definition getAllEntries (m : Manager) : list Entry :=
  snd <$> map_to_list (cache m).

(** Successive calls of [incrementAttempts] on one key, at the given
    instants; the values returned, in order, and the final store. *)
Fixpoint incrementAttempts_at (times : list Z) (key : string) (m : Manager)
    : list (Completion Z) * Manager :=
  match times with
  | [] => ([], m)
  | now :: times' =>
      let '(r, m1) := incrementAttempts now key m in
      let '(rs, m2) := incrementAttempts_at times' key m1 in
      (r :: rs, m2)
  end.

End IdempotencyManager.

(** ** RateLimiter.js *)
Module RateLimiter.
Local Open Scope Z_scope.

(** The part of an Express request that the key generator reads. *)
Record Req := mkReq {
  ip : option string;
  remoteAddress : option string
}.

(** [req.ip || req.connection.remoteAddress || 'unknown']; the empty
    string is falsy. *)
Definition _defaultKeyGenerator (req : Req) : string :=
  match ip req with
  | Some s => if bool_decide (s = "") then
                match remoteAddress req with
                | Some a => if bool_decide (a = "") then "unknown" else a
                | None => "unknown"
                end
              else s
  | None =>
      match remoteAddress req with
      | Some a => if bool_decide (a = "") then "unknown" else a
      | None => "unknown"
      end
  end.

Record Config := mkConfig {
  windowMs : Z;
  maxRequests : Z;
  keyGenerator : Req -> string
}.

Definition defaultConfig : Config :=
  {| windowMs := 60000; maxRequests := 100;
     keyGenerator := _defaultKeyGenerator |}.

Record Bucket := mkBucket {
  tokens : Z;
  lastRefill : Z;
  requests : list Z
}.

Record Limiter := mkLimiter {
  config : Config;
  buckets : gmap string Bucket
}.

(** The object returned by [checkLimit]; [res_retryAfter] is [null] when
    the request is allowed. *)
Record Result := mkResult {
  allowed : bool;
  res_tokens : Z;
  resetTime : Z;
  res_retryAfter : option Z
}.

(** [_refillBucket(bucket, now)] *)
Definition _refillBucket (c : Config) (bucket : Bucket) (now : Z) : Bucket :=
  let timeElapsed := now - lastRefill bucket in
  if windowMs c <=? timeElapsed
  then {| tokens := maxRequests c; lastRefill := now;
          requests :=
            filter (fun req => now - req < windowMs c) (requests bucket) |}
  else bucket.

(** The bucket that [checkLimit] works on: the stored one, or a fresh full
    bucket for a key seen for the first time. *)
Definition bucket_for (now : Z) (key : string) (l : Limiter) : Bucket :=
  match buckets l !! key with
  | Some b => b
  | None =>
      {| tokens := maxRequests (config l); lastRefill := now;
         requests := [] |}
  end.

(** [checkLimit(req)] *)
Definition checkLimit (now : Z) (req : Req) (l : Limiter)
    : Result * Limiter :=
  let key := keyGenerator (config l) req in
  let bucket := _refillBucket (config l) (bucket_for now key l) now in
  if 0 <? tokens bucket then
    let bucket' :=
      {| tokens := tokens bucket - 1; lastRefill := lastRefill bucket;
         requests := requests bucket ++ [now] |} in
    ({| allowed := true; res_tokens := tokens bucket';
        resetTime := lastRefill bucket' + windowMs (config l);
        res_retryAfter := None |},
     {| config := config l; buckets := <[key := bucket']> (buckets l) |})
  else
    let retryAfter :=
      ceil_div (lastRefill bucket + windowMs (config l) - now) 1000 in
    ({| allowed := false; res_tokens := 0;
        resetTime := lastRefill bucket + windowMs (config l);
        res_retryAfter := Some retryAfter |},
     {| config := config l; buckets := <[key := bucket]> (buckets l) |}).

(** [checkKey(key)] *)
Definition checkKey (now : Z) (key : string) (l : Limiter)
    : Result * Limiter :=
  checkLimit now {| ip := Some key; remoteAddress := Some key |} l.

(** [reset(key)] and [clear()] *)
Definition reset (key : string) (l : Limiter) : Limiter :=
  {| config := config l; buckets := delete key (buckets l) |}.
Definition clear (l : Limiter) : Limiter :=
  {| config := config l; buckets := ∅ |}.

(** The rule of the specification for an exhausted bucket: the request is
    refused, no token is taken, and the reply carries
    [windowStart + windowMs - now]. *)
Definition exhaustion_reply_in_ms (now : Z) (req : Req) (l : Limiter)
    : Prop :=
  let key := keyGenerator (config l) req in
  let bucket := _refillBucket (config l) (bucket_for now key l) now in
  tokens bucket <= 0 ->
  allowed (fst (checkLimit now req l)) = false /\
  res_retryAfter (fst (checkLimit now req l)) =
    Some (lastRefill bucket + windowMs (config l) - now) /\
  buckets (snd (checkLimit now req l)) !! key = Some bucket.

(** A client that has used the only token of its window at instant 0. *)
Definition client : Req := {| ip := Some "10.0.0.1"; remoteAddress := None |}.
Definition spentLimiter : Limiter :=
  snd (checkLimit 0 client
         {| config := {| windowMs := 60000; maxRequests := 1;
                         keyGenerator := _defaultKeyGenerator |};
            buckets := ∅ |}).

(** A limiter of capacity 5 in which the client has two tokens left in
    the window that started at instant 0. *)
Definition twoLeft : Limiter :=
  {| config := {| windowMs := 60000; maxRequests := 5;
                  keyGenerator := _defaultKeyGenerator |};
     buckets :=
       {[ "10.0.0.1" := {| tokens := 2; lastRefill := 0;
                           requests := [0; 0; 0] |} ]} |}.

(** [cleanupExpired()]: one pass over the buckets; every bucket whose
    last refill is more than two windows old is deleted and counted. *)
Definition idle (c : Config) (now : Z) (bucket : Bucket) : Prop :=
  windowMs c * 2 < now - lastRefill bucket.

#[export] Instance idle_dec c now bucket : Decision (idle c now bucket).
Proof. unfold idle. apply _. Defined.

Definition idle_step (c : Config) (now : Z) (key : string) (bucket : Bucket)
    (acc : gmap string Bucket * Z) : gmap string Bucket * Z :=
  if windowMs c * 2 <? now - lastRefill bucket
  then (delete key (fst acc), snd acc + 1)
  else acc.

Definition cleanupExpired (now : Z) (l : Limiter) : Z * Limiter :=
  let r := map_fold (idle_step (config l) now) (buckets l, 0) (buckets l) in
  (snd r, {| config := config l; buckets := fst r |}).

(** Successive calls of [checkLimit] for one request, at the given
    instants; the answers, in order, and the final limiter. *)
Fixpoint checkLimit_at (times : list Z) (req : Req) (l : Limiter)
    : list Result * Limiter :=
  match times with
  | [] => ([], l)
  | now :: times' =>
      let '(r, l1) := checkLimit now req l in
      let '(rs, l2) := checkLimit_at times' req l1 in
      (r :: rs, l2)
  end.

(** Every stored bucket holds between zero and [maxRequests] tokens. *)
Definition within_capacity (l : Limiter) : Prop :=
  forall key bucket, buckets l !! key = Some bucket ->
    0 <= tokens bucket <= maxRequests (config l).

End RateLimiter.

(** ** EmailQueue.js *)
Module EmailQueue.
Local Open Scope Z_scope.

Inductive JobStatus := queued | processing | retrying | completed | failed.

(** [jobData]: the fields that [EmailService.sendEmail] puts in a job. *)
Record JobData := mkJobData {
  to : string;
  subject : string;
  body : string;
  idempotencyKey : string;
  data_priority : option Z;
  data_delay : option Z
}.

(** The [options] argument of [add]. *)
Record Options := mkOptions {
  opt_priority : option Z;
  opt_delay : option Z
}.
Definition noOptions : Options :=
  {| opt_priority := None; opt_delay := None |}.

Record Config := mkConfig {
  maxRetries : Z;
  retryDelay : Z;
  maxConcurrency : Z;
  processInterval : Z;
  jobTimeout : Z;
  stuckJobCleanupInterval : Z
}.

Definition defaultConfig : Config :=
  {| maxRetries := 3; retryDelay := 5000; maxConcurrency := 5;
     processInterval := 1000; jobTimeout := 90000;
     stuckJobCleanupInterval := 60000 |}.

Record Job := mkJob {
  id : string;
  data : JobData;
  attempts : Z;
  job_maxRetries : Z;
  createdAt : Z;
  status : JobStatus;
  priority : Z;
  delay : Z;
  executeAfter : option Z;
  startedAt : option Z;
  completedAt : option Z;
  failedAt : option Z;
  result : option JsObject;
  error : option JsError
}.

Record Queue := mkQueue {
  config : Config;
  queue : list Job;
  processingJobs : gmap string Job;
  completedJobs : list Job;
  failedJobs : list Job;
  isProcessing : bool;
  activeJobs : Z;
  hasProcessor : bool
}.

(** [new EmailQueue(config)] *)
Definition create (c : Config) : Queue :=
  {| config := c; queue := []; processingJobs := ∅; completedJobs := [];
     failedJobs := []; isProcessing := false; activeJobs := 0;
     hasProcessor := false |}.

(** [a || b || 0] on optional numbers *)
Definition or_zero (a b : option Z) : Z :=
  if truthy a then default 0 a
  else if truthy b then default 0 b
  else 0.

(** [_insertByPriority(job)]: the job goes in front of the first queued
    job of strictly lower priority, or at the end. *)
Fixpoint _insertByPriority (job : Job) (q : list Job) : list Job :=
  match q with
  | [] => [job]
  | j :: q' =>
      if priority j <? priority job
      then job :: j :: q'
      else j :: _insertByPriority job q'
  end.

(** [!job.executeAfter || now >= job.executeAfter] *)
Definition ready (now : Z) (job : Job) : bool :=
  negb (truthy (executeAfter job)) || (default 0 (executeAfter job) <=? now).

(** The scan of [_getNextJob]: [i] is the loop index, [bestJobIndex] is
    [None] for -1. *)
Fixpoint scan (now : Z) (q : list Job) (i : nat)
    (bestJobIndex : option nat) (bestPriority : Z) : option nat :=
  match q with
  | [] => bestJobIndex
  | job :: q' =>
      if ready now job && (bestPriority <? priority job)
      then scan now q' (S i) (Some i) (priority job)
      else scan now q' (S i) bestJobIndex bestPriority
  end.

(** [_getNextJob()]: the selected job is spliced out of the queue. *)
Definition _getNextJob (now : Z) (q : list Job) : option Job * list Job :=
  match scan now q 0%nat None (-1) with
  | Some i => (q !! i, delete i q)
  | None => (None, q)
  end.

Definition with_queue (s : Queue) (q : list Job) : Queue :=
  {| config := config s; queue := q; processingJobs := processingJobs s;
     completedJobs := completedJobs s; failedJobs := failedJobs s;
     isProcessing := isProcessing s; activeJobs := activeJobs s;
      hasProcessor := hasProcessor s |}.

(** [add(jobData, options)]; [jobId] is what [_generateJobId()] returned.
    The queue starts its polling timer if it was not running. *)
Definition add (now : Z) (jobId : string) (jobData : JobData)
    (options : Options) (s : Queue) : string * Queue :=
  let d := or_zero (opt_delay options) (data_delay jobData) in
  let job :=
    {| id := jobId; data := jobData; attempts := 0;
       job_maxRetries := maxRetries (config s); createdAt := now;
       status := queued;
       priority := or_zero (opt_priority options) (data_priority jobData);
       delay := d;
       executeAfter := if 0 <? d then Some (now + d) else None;
       startedAt := None; completedAt := None; failedAt := None;
       result := None; error := None |} in
  (jobId,
   {| config := config s; queue := _insertByPriority job (queue s);
      processingJobs := processingJobs s;
      completedJobs := completedJobs s; failedJobs := failedJobs s;
      isProcessing := true; activeJobs := activeJobs s;
      hasProcessor := hasProcessor s |}).

(** [process(processor)]: the processor is registered and the polling
    timer is started if it was not running. *)
Definition process (s : Queue) : Queue :=
  {| config := config s; queue := queue s;
     processingJobs := processingJobs s; completedJobs := completedJobs s;
     failedJobs := failedJobs s; isProcessing := true;
     activeJobs := activeJobs s; hasProcessor := true |}.

(** The synchronous head of [_processJob(job)], up to the call of the
    processor. *)
Definition _processJob_start (now : Z) (job : Job) : Job :=
  {| id := id job; data := data job; attempts := attempts job + 1;
     job_maxRetries := job_maxRetries job; createdAt := createdAt job;
     status := processing; priority := priority job; delay := delay job;
     executeAfter := executeAfter job; startedAt := Some now;
     completedAt := completedAt job; failedAt := failedAt job;
     result := result job; error := error job |}.

(** One tick of [_processJobs()]: jobs are taken while a worker slot is
    free; each taken job is registered as processing and started.  The
    loop runs at most once per queued job. *)
Fixpoint take_jobs (fuel : nat) (now : Z) (s : Queue) : list Job * Queue :=
  match fuel with
  | O => ([], s)
  | S fuel' =>
      if activeJobs s <? maxConcurrency (config s) then
        match _getNextJob now (queue s) with
        | (Some job, q') =>
            let job' := _processJob_start now job in
            let s' :=
              {| config := config s; queue := q';
                 processingJobs := <[id job := job']> (processingJobs s);
                 completedJobs := completedJobs s;
                 failedJobs := failedJobs s;
                 isProcessing := isProcessing s;
                 activeJobs := activeJobs s + 1;
                 hasProcessor := hasProcessor s |} in
            let '(started, s'') := take_jobs fuel' now s' in
            (job' :: started, s'')
        | (None, _) => ([], s)
        end
      else ([], s)
  end.

Definition _processJobs (now : Z) (s : Queue) : list Job * Queue :=
  if hasProcessor s then take_jobs (length (queue s)) now s else ([], s).

(** The tail of [_processJob(job)], run when the processor has settled
    at instant [now]: the job is marked and pushed to the completed list,
    put back in the queue for a retry, or pushed to the failed list.
    [_processJob] touches neither the worker count nor the processing
    map, and no rejection leaves it.  [job] is the job object as it is
    when the processor settles; a list holds a job as it was when
    pushed. *)
Definition _processJob_settle (now : Z) (job : Job)
    (settled : Completion JsObject) (s : Queue) : Queue :=
  match settled with
  | Return res =>
      let job' :=
        {| id := id job; data := data job; attempts := attempts job;
           job_maxRetries := job_maxRetries job; createdAt := createdAt job;
           status := completed; priority := priority job;
           delay := delay job; executeAfter := executeAfter job;
           startedAt := startedAt job; completedAt := Some now;
           failedAt := failedAt job; result := Some res;
           error := error job |} in
      {| config := config s; queue := queue s;
         processingJobs := processingJobs s;
         completedJobs := completedJobs s ++ [job'];
         failedJobs := failedJobs s; isProcessing := isProcessing s;
         activeJobs := activeJobs s;
         hasProcessor := hasProcessor s |}
  | Throw err =>
      if (attempts job <? job_maxRetries job) && negb (retryable_is_false err)
      then
        let job' :=
          {| id := id job; data := data job; attempts := attempts job;
             job_maxRetries := job_maxRetries job;
             createdAt := createdAt job; status := retrying;
             priority := priority job; delay := delay job;
             executeAfter :=
               Some (now + retryDelay (config s) * attempts job);
             startedAt := startedAt job; completedAt := completedAt job;
             failedAt := failedAt job; result := result job;
             error := error job |} in
        {| config := config s; queue := _insertByPriority job' (queue s);
           processingJobs := processingJobs s;
           completedJobs := completedJobs s;
           failedJobs := failedJobs s; isProcessing := isProcessing s;
           activeJobs := activeJobs s;
           hasProcessor := hasProcessor s |}
      else
        let job' :=
          {| id := id job; data := data job; attempts := attempts job;
             job_maxRetries := job_maxRetries job;
             createdAt := createdAt job; status := failed;
             priority := priority job; delay := delay job;
             executeAfter := executeAfter job; startedAt := startedAt job;
             completedAt := completedAt job; failedAt := Some now;
             result := result job; error := Some err |} in
        {| config := config s; queue := queue s;
           processingJobs := processingJobs s;
           completedJobs := completedJobs s;
           failedJobs := failedJobs s ++ [job'];
           isProcessing := isProcessing s;
           activeJobs := activeJobs s;
           hasProcessor := hasProcessor s |}
  end.



(** The [.finally] handler of the same chain: the worker slot is
    released and the job leaves the processing map. *)
Definition _processJobs_finally (job : Job) (s : Queue) : Queue :=
  {| config := config s; queue := queue s;
     processingJobs := delete (id job) (processingJobs s);
     completedJobs := completedJobs s; failedJobs := failedJobs s;
     isProcessing := isProcessing s; activeJobs := activeJobs s - 1;
     hasProcessor := hasProcessor s |}.

(** The two ways the race of [_processJobWithTimeout(job)] is decided.
    When the processor settles first, [_processJob] finishes, the race is
    fulfilled and [.finally] runs.  When the watchdog fires first, the
    race is rejected, [.catch] and [.finally] run, and the processor is
    left running: whenever it settles later, the tail of [_processJob]
    runs on its own, with no handler after it.  A watchdog that fires
    after the race is decided changes nothing. *)
Definition settled_in_time (now : Z) (job : Job)
    (settled : Completion JsObject) (s : Queue) : Queue :=
  _processJobs_finally job (_processJob_settle now job settled s).


(** [getJob(jobId)]: processing map, then queue, completed, failed. *)
Definition getJob (jobId : string) (s : Queue) : option Job :=
  match processingJobs s !! jobId with
  | Some job => Some job
  | None =>
      let has_id (job : Job) := bool_decide (id job = jobId) in
      match find has_id (queue s) with
      | Some job => Some job
      | None =>
          match find has_id (completedJobs s) with
          | Some job => Some job
          | None => find has_id (failedJobs s)
          end
      end
  end.

(** Number of queued jobs that carry a given idempotency key. *)
Definition queued_for (key : string) (q : list Job) : nat :=
  length (filter (fun job => idempotencyKey (data job) = key) q).

(** The queue array is kept in non-increasing order of priority. *)
Fixpoint sorted (q : list Job) : Prop :=
  match q with
  | [] => True
  | j :: q' => Forall (fun x => priority x <= priority j) q' /\ sorted q'
  end.

(** The rule of the specification for ties: among the ready jobs of the
    selected priority, the selected job is the one submitted first. *)
Definition ties_by_submission (now : Z) (q : list Job) : Prop :=
  forall job q', _getNextJob now q = (Some job, q') ->
  forall other, other ∈ q -> ready now other = true ->
    priority other = priority job -> createdAt job <= createdAt other.

(** A job qualifies for selection against the best priority seen so far. *)
Definition qualifies (now bestPriority : Z) (job : Job) : Prop :=
  ready now job = true /\ bestPriority < priority job.

(** A run with a retry.  Job A (priority 5) is submitted at instant 0 and
    taken by the tick at 1000; job B (priority 5, delayed by 20 s) is
    submitted at 1005; the attempt on A fails with a retryable error at
    2000 and A is queued again. *)
Definition jobDataA : JobData :=
  {| to := "a@b.co"; subject := "s"; body := "x"; idempotencyKey := "rA";
     data_priority := Some 5; data_delay := None |}.
Definition jobDataB : JobData :=
  {| to := "a@b.co"; subject := "s"; body := "x"; idempotencyKey := "rB";
     data_priority := Some 5; data_delay := Some 20000 |}.

Definition retryScenario : Queue :=
  let s1 :=
    snd (add 0 "job_A" jobDataA noOptions (process (create defaultConfig))) in
  let taken := _processJobs 1000 s1 in
  let s3 := snd (add 1005 "job_B" jobDataB noOptions (snd taken)) in
  match fst taken with
  | jobA :: _ =>
      settled_in_time 2000 jobA (Throw CircuitBreaker.temporaryFailure) s3
  | [] => s3
  end.

(** A third job, as [add] would build it at instant 3000. *)
Definition jobC : Job :=
  {| id := "job_C"; data := jobDataA; attempts := 0; job_maxRetries := 3;
     createdAt := 3000; status := queued; priority := 5; delay := 0;
     executeAfter := None; startedAt := None; completedAt := None;
     failedAt := None; result := None; error := None |}.

(** A queue that holds job A alone, with a processor registered. *)
Definition oneJob : Queue :=
  snd (add 0 "job_A" jobDataA noOptions (process (create defaultConfig))).



(** [array.slice(-k)]: for a negative start the last [k] elements (all
    of them when there are fewer), and for a start of (minus) zero the
    whole array. *)
Definition slice_last {A : Type} (k : Z) (l : list A) : list A :=
  let len := Z.of_nat (length l) in
  let start := if - k <? 0 then Z.max (len - k) 0 else Z.min (- k) len in
  drop (Z.to_nat start) l.

(** [new Date(stamp).getTime() > cutoffTime]; a missing stamp gives [NaN]
    and the comparison fails. *)
Definition newer_than (cutoffTime : Z) (stamp : option Z) : bool :=
  match stamp with
  | Some t => cutoffTime <? t
  | None => false
  end.

(** [cleanup({maxAge, keepCount})] *)
Definition cleanup (now maxAge keepCount : Z) (s : Queue) : Queue :=
  let cutoffTime := now - maxAge in
  {| config := config s; queue := queue s;
     processingJobs := processingJobs s;
     completedJobs :=
       slice_last keepCount
         (filter (fun job => newer_than cutoffTime (completedAt job) = true)
            (completedJobs s));
     failedJobs :=
       slice_last keepCount
         (filter (fun job => newer_than cutoffTime (failedAt job) = true)
            (failedJobs s));
     isProcessing := isProcessing s; activeJobs := activeJobs s;
     hasProcessor := hasProcessor s |}.

(** The job that [add] builds. *)
Definition new_job (now : Z) (jobId : string) (jobData : JobData)
    (options : Options) (s : Queue) : Job :=
  {| id := jobId; data := jobData; attempts := 0;
     job_maxRetries := maxRetries (config s); createdAt := now;
     status := queued;
     priority := or_zero (opt_priority options) (data_priority jobData);
     delay := or_zero (opt_delay options) (data_delay jobData);
     executeAfter :=
       if 0 <? or_zero (opt_delay options) (data_delay jobData)
       then Some (now + or_zero (opt_delay options) (data_delay jobData))
       else None;
     startedAt := None; completedAt := None; failedAt := None;
     result := None; error := None |}.

End EmailQueue.

(** ** EmailService.js *)
Module EmailService.
Local Open Scope Z_scope.

Record Config := mkConfig {
  maxRetries : Z;
  initialRetryDelay : Z;
  maxRetryDelay : Z;
  retryMultiplier : Z;
  enableCircuitBreaker : bool;
  enableRateLimit : bool;
  enableQueue : bool
}.

Definition defaultConfig : Config :=
  {| maxRetries := 3; initialRetryDelay := 1000; maxRetryDelay := 30000;
     retryMultiplier := 2; enableCircuitBreaker := true;
     enableRateLimit := true; enableQueue := true |}.

(** What a transport returns on success. *)
Record SendResult := mkSendResult {
  messageId : string;
  provider : string;
  timestamp : Z
}.

(** What the service leaves behind for an observer: the failure of an
    attempt as reported by [logger.error('Email sending attempt failed')],
    and every call of [_sleep(ms)]. *)
Inductive Event :=
| AttemptFailed (providerName : string) (attempt : Z) (error : JsError)
| Slept (ms : Z).

Section Service.
(** [W] is the state of the transports.  [providerSend name data now w]
    is [provider.sendEmail(emailData)] of the provider [name], called at
    instant [now].  [emailRegex_test] is
    [/^[^\s@]+@[^\s@]+\.[^\s@]+$/.test]. *)
Context {W : Type}.
Variable providerSend :
  string -> EmailQueue.JobData -> Z -> W ->
  CircuitBreaker.Settled SendResult * W.
Variable emailRegex_test : string -> bool.

Record Service := mkService {
  config : Config;
  idempotency : IdempotencyManager.Manager;
  emailQueue : EmailQueue.Queue;
  breakers : gmap string CircuitBreaker.Breaker;
  clock : Z;
  trace : list Event;
  world : W
}.

(** [new EmailService(config)] at instant [now]. *)
Definition create (c : Config) (now : Z) (w : W) : Service :=
  {| config := c; idempotency := IdempotencyManager.create;
     emailQueue :=
       if enableQueue c
       then EmailQueue.process (EmailQueue.create EmailQueue.defaultConfig)
       else EmailQueue.create EmailQueue.defaultConfig;
     breakers := ∅; clock := now; trace := []; world := w |}.

Definition with_idempotency (s : Service) (m : IdempotencyManager.Manager)
    : Service :=
  {| config := config s; idempotency := m; emailQueue := emailQueue s;
     breakers := breakers s; clock := clock s; trace := trace s;
     world := world s |}.

Definition with_emailQueue (s : Service) (q : EmailQueue.Queue) : Service :=
  {| config := config s; idempotency := idempotency s; emailQueue := q;
     breakers := breakers s; clock := clock s; trace := trace s;
     world := world s |}.

(** The wall clock reaches [t]. *)
Definition at_clock (t : Z) (s : Service) : Service :=
  {| config := config s; idempotency := idempotency s;
     emailQueue := emailQueue s; breakers := breakers s; clock := t;
     trace := trace s; world := world s |}.

Definition logged (ev : Event) (s : Service) : Service :=
  {| config := config s; idempotency := idempotency s;
     emailQueue := emailQueue s; breakers := breakers s; clock := clock s;
     trace := trace s ++ [ev]; world := world s |}.

(** [await this._sleep(ms)] *)
Definition _sleep (ms : Z) (s : Service) : Service :=
  at_clock (clock s + ms) (logged (Slept ms) s).

Definition plainError (msg : string) : JsError :=
  {| message := msg; code := None; retryable := None; retryAfter := None;
     stack := "" |}.

(** [_validateEmailData({to, subject, body, idempotencyKey})] *)
Definition _validateEmailData (d : EmailQueue.JobData) : Completion unit :=
  if bool_decide (EmailQueue.to d = "")
  then Throw (plainError "Email recipient (to) is required")
  else if bool_decide (EmailQueue.subject d = "")
  then Throw (plainError "Email subject is required")
  else if bool_decide (EmailQueue.body d = "")
  then Throw (plainError "Email body is required")
  else if bool_decide (EmailQueue.idempotencyKey d = "")
  then Throw (plainError "Idempotency key is required")
  else if emailRegex_test (EmailQueue.to d) then Return ()
  else Throw (plainError "Invalid email address format").

(** [_isGloballyNonRetryable(error)] *)
Definition _isGloballyNonRetryable (error : JsError) : bool :=
  let globallyNonRetryableErrors : list string :=
    ["MALFORMED_EMAIL_DATA"; "AUTHENTICATION_FAILED"; "QUOTA_EXCEEDED";
     "SERVICE_SUSPENDED"] in
  let providerSpecificErrors : list string :=
    ["INVALID_EMAIL"; "CONTENT_REJECTED"; "DOMAIN_BLOCKED";
     "RECIPIENT_REJECTED"] in
  match code error with
  | Some c =>
      if bool_decide (c ∈ providerSpecificErrors) then false
      else bool_decide (c ∈ globallyNonRetryableErrors)
  | None => false
  end.

(** [CircuitBreakerManager.getBreaker(name)]: created on first use. *)
Definition getBreaker (name : string) (s : Service)
    : CircuitBreaker.Breaker :=
  default (CircuitBreaker.create CircuitBreaker.defaultConfig)
          (breakers s !! name).

(** The bookkeeping at the head of every attempt: both calls sit in one
    [try]; whatever they throw is swallowed. *)
Definition note_attempt (providerName : string) (key : string)
    (attempt : Z) (s : Service) : Service :=
  match IdempotencyManager.incrementAttempts (clock s) key (idempotency s) with
  | (Throw _, m1) => with_idempotency s m1
  | (Return _, m1) =>
      with_idempotency s
        (snd (IdempotencyManager.update (clock s) key
                (list_to_map
                   [("currentProvider", VStr providerName);
                    ("currentAttempt", VNum attempt);
                    ("maxRetries", VNum (maxRetries (config s)));
                    ("lastAttemptAt", VNum (clock s))])
                m1))
  end.

(** One call of the transport, through the breaker when it is enabled.
    The clock moves to the instant at which the call settled. *)
Definition call_provider (providerName : string) (d : EmailQueue.JobData)
    (s : Service) : Completion SendResult * Service :=
  if enableCircuitBreaker (config s) then
    let '(st, b, w) :=
      CircuitBreaker.execute (clock s)
        (providerSend providerName d (clock s))
        (getBreaker providerName s) (world s) in
    (CircuitBreaker.outcome st,
     {| config := config s; idempotency := idempotency s;
        emailQueue := emailQueue s;
        breakers := <[providerName := b]> (breakers s);
        clock := CircuitBreaker.settledAt st; trace := trace s;
        world := w |})
  else
    let '(st, w) := providerSend providerName d (clock s) (world s) in
    (CircuitBreaker.outcome st,
     {| config := config s; idempotency := idempotency s;
        emailQueue := emailQueue s; breakers := breakers s;
        clock := CircuitBreaker.settledAt st; trace := trace s;
        world := w |}).

(** The [while (attempt < maxRetries)] loop of [_sendWithProvider].
    [remaining] is [maxRetries - attempt]: it is zero exactly when the
    loop condition fails, and every iteration adds one to [attempt].  A
    loop that ends by its condition returns [undefined]. *)
Fixpoint retry_loop (remaining : nat) (providerName : string)
    (d : EmailQueue.JobData) (attempt delay : Z) (s : Service)
    : Completion (option SendResult) * Service :=
  match remaining with
  | O => (Return None, s)
  | S remaining' =>
      let attempt := attempt + 1 in
      let s1 :=
        note_attempt providerName (EmailQueue.idempotencyKey d) attempt s in
      match call_provider providerName d s1 with
      | (Return result, s2) => (Return (Some result), s2)
      | (Throw error, s2) =>
          let s3 := logged (AttemptFailed providerName attempt error) s2 in
          if (maxRetries (config s3) <=? attempt) || retryable_is_false error
          then (Throw error, s3)
          else if attempt <? maxRetries (config s3) then
            let actualDelay :=
              if truthy (retryAfter error)
              then default 0 (retryAfter error) * 1000
              else delay in
            retry_loop remaining' providerName d attempt
              (Z.min (delay * retryMultiplier (config s3))
                     (maxRetryDelay (config s3)))
              (_sleep actualDelay s3)
          else retry_loop remaining' providerName d attempt delay s3
      end
  end.

(** [_sendWithProvider(providerName, emailData)] *)
Definition _sendWithProvider (providerName : string)
    (d : EmailQueue.JobData) (s : Service)
    : Completion (option SendResult) * Service :=
  retry_loop (Z.to_nat (maxRetries (config s))) providerName d 0
    (initialRetryDelay (config s)) s.

Definition sentResult (providerName : string) (r : SendResult)
    (key : string) : JsObject :=
  list_to_map
    [("success", VBool true); ("status", VStr "sent");
     ("provider", VStr providerName); ("messageId", VStr (messageId r));
     ("timestamp", VNum (timestamp r)); ("idempotencyKey", VStr key)].

(** The body of the [for (const providerName of providers)] loop of
    [_processEmailDirectly], over the providers still to be tried. *)
Fixpoint try_providers (providers : list string) (d : EmailQueue.JobData)
    (lastError : option JsError) (s : Service)
    : Completion JsObject * Service :=
  match providers with
  | [] =>
      (Throw (default (plainError "All email providers failed") lastError), s)
  | providerName :: rest =>
      let attempted :=
        match _sendWithProvider providerName d s with
        | (Return (Some result), s1) => (Return result, s1)
        | (Return None, s1) =>
            (Throw (plainError "Cannot read properties of undefined"), s1)
        | (Throw error, s1) => (Throw error, s1)
        end in
      match attempted with
      | (Return result, s1) =>
          (Return (sentResult providerName result
                     (EmailQueue.idempotencyKey d)), s1)
      | (Throw error, s1) =>
          if retryable_is_false error && _isGloballyNonRetryable error
          then (Throw error, s1)
          else
            match rest with
            | [] => try_providers rest d (Some error) s1
            | nextProvider :: _ =>
                let m :=
                  snd (IdempotencyManager.update (clock s1)
                         (EmailQueue.idempotencyKey d)
                         {[ "providerSwitch" :=
                              VObj [("from", VStr providerName);
                                    ("to", VStr nextProvider);
                                    ("reason", VStr (message error));
                                    ("switchedAt", VNum (clock s1))] ]}
                         (idempotency s1)) in
                try_providers rest d (Some error) (with_idempotency s1 m)
            end
      end
  end.

(** [_processEmailDirectly(emailData)] *)
Definition _processEmailDirectly (d : EmailQueue.JobData) (s : Service)
    : Completion JsObject * Service :=
  try_providers ["primary"; "secondary"] d None s.

(** [_processEmailJob(jobData)], the processor given to the queue. *)
Definition _processEmailJob (d : EmailQueue.JobData) (s : Service)
    : Completion JsObject * Service :=
  match _processEmailDirectly d s with
  | (Return res, s1) =>
      (Return res,
       with_idempotency s1
         (snd (IdempotencyManager.markAsCompleted (clock s1)
                 (EmailQueue.idempotencyKey d) res (idempotency s1))))
  | (Throw error, s1) =>
      (Throw error,
       with_idempotency s1
         (snd (IdempotencyManager.markAsFailed (clock s1)
                 (EmailQueue.idempotencyKey d) error (idempotency s1))))
  end.

Definition pendingReply (key : string) : JsObject :=
  list_to_map
    [("success", VBool false); ("status", VStr "pending");
     ("message", VStr "Email is already being processed");
     ("idempotencyKey", VStr key)].

Definition queuedReply (jobId key : string) : JsObject :=
  list_to_map
    [("success", VBool true); ("status", VStr "queued");
     ("jobId", VStr jobId); ("idempotencyKey", VStr key);
     ("message", VStr "Email queued for processing")].

Definition errorReply (error : JsError) (key : string) : JsObject :=
  list_to_map
    [("success", VBool false); ("status", VStr "failed");
     ("error", VStr (message error)); ("code", opt_str (code error));
     ("idempotencyKey", VStr key)].

(** [sendEmail(emailData)]; [jobId] is the identifier that the queue
    generates if a job is created. *)
Definition sendEmail (jobId : string) (d : EmailQueue.JobData) (s : Service)
    : Completion JsObject * Service :=
  let key := EmailQueue.idempotencyKey d in
  let priority := default 0 (EmailQueue.data_priority d) in
  let delay := default 0 (EmailQueue.data_delay d) in
  match _validateEmailData d with
  | Throw e => (Throw e, s)
  | Return _ =>
      match IdempotencyManager.get (clock s) key (idempotency s) with
      | (Throw e, m) => (Throw e, with_idempotency s m)
      | (Return (Some existingResult), m) =>
          match IdempotencyManager.status existingResult with
          | IdempotencyManager.pending =>
              (Return (pendingReply key), with_idempotency s m)
          | _ =>
              (Return (IdempotencyManager.result existingResult),
               with_idempotency s m)
          end
      | (Return None, m) =>
          let m1 :=
            snd (IdempotencyManager.markAsPending (clock s) key
                   (list_to_map
                      [("to", VStr (EmailQueue.to d));
                       ("subject", VStr (EmailQueue.subject d));
                       ("startedAt", VNum (clock s))])
                   m) in
          let s1 := with_idempotency s m1 in
          let '(settled, s2) :=
            if enableQueue (config s1) then
              let '(jobId', q) :=
                EmailQueue.add (clock s1) jobId
                  {| EmailQueue.to := EmailQueue.to d;
                     EmailQueue.subject := EmailQueue.subject d;
                     EmailQueue.body := EmailQueue.body d;
                     EmailQueue.idempotencyKey := key;
                     EmailQueue.data_priority := Some priority;
                     EmailQueue.data_delay := Some delay |}
                  EmailQueue.noOptions (emailQueue s1) in
              (Return (queuedReply jobId' key), with_emailQueue s1 q)
            else
              _processEmailDirectly
                {| EmailQueue.to := EmailQueue.to d;
                   EmailQueue.subject := EmailQueue.subject d;
                   EmailQueue.body := EmailQueue.body d;
                   EmailQueue.idempotencyKey := key;
                   EmailQueue.data_priority := None;
                   EmailQueue.data_delay := None |}
                s1 in
          match settled with
          | Return res =>
              (Return res,
               with_idempotency s2
                 (snd (IdempotencyManager.markAsCompleted (clock s2) key res
                         (idempotency s2))))
          | Throw error =>
              (Return (errorReply error key),
               with_idempotency s2
                 (snd (IdempotencyManager.markAsFailed (clock s2) key error
                         (idempotency s2))))
          end
      end
  end.

(** The rule of the specification for a duplicate in flight: when the
    first submission was queued, a second submission of the same request
    at instant [later] is answered with status [pending] and leaves the
    queue as it is. *)
Definition duplicate_gets_pending (jobId1 jobId2 : string) (later : Z)
    (d : EmailQueue.JobData) (s : Service) : Prop :=
  let first := sendEmail jobId1 d s in
  let second := sendEmail jobId2 d (at_clock later (snd first)) in
  fst first = Return (queuedReply jobId1 (EmailQueue.idempotencyKey d)) ->
  (exists reply,
     fst second = Return reply /\
     reply !! "status" = Some (VStr "pending")) /\
  EmailQueue.queue (emailQueue (snd second))
  = EmailQueue.queue (emailQueue (snd first)).

End Service.

Arguments Service W : clear implicits.

(** What the retry loop does with [retryAfter]: a retryable failure on a
    non-final attempt that carries a non-zero value [seconds] is followed
    by a sleep of [seconds * 1000] milliseconds. *)
Fixpoint paced (maxRetries : Z) (tr : list Event) : Prop :=
  match tr with
  | [] => True
  | AttemptFailed _ attempt error :: rest =>
      (attempt < maxRetries -> retryable_is_false error = false ->
       forall seconds, retryAfter error = Some seconds -> seconds <> 0 ->
         exists rest', rest = Slept (seconds * 1000) :: rest') /\
      paced maxRetries rest
  | Slept _ :: rest => paced maxRetries rest
  end.

(** The sleeps of a trace, in order. *)
Definition sleeps (tr : list Event) : list Z :=
  omap (fun ev => match ev with Slept ms => Some ms | _ => None end) tr.

(** The failed attempts of a trace, in order. *)
Definition failures (tr : list Event) : list (string * Z * JsError) :=
  omap (fun ev =>
          match ev with
          | AttemptFailed p n e => Some (p, n, e)
          | Slept _ => None
          end) tr.

(** The value of [delay] in [_sendWithProvider] once [n] attempts have
    failed: it starts at [initialRetryDelay] and each retry replaces it by
    [Math.min(delay * retryMultiplier, maxRetryDelay)]. *)
Fixpoint backoff (c : Config) (n : nat) : Z :=
  match n with
  | O => initialRetryDelay c
  | S n' => Z.min (backoff c n' * retryMultiplier c) (maxRetryDelay c)
  end.

(** The wait that follows a failed attempt which is retried. *)
Definition wait_after (c : Config) (attempt : Z) (error : JsError) : Z :=
  if truthy (retryAfter error)
  then default 0 (retryAfter error) * 1000
  else backoff c (Z.to_nat (attempt - 1)).

(** Every failed attempt that is retried is followed by its wait. *)
Fixpoint scheduled (c : Config) (tr : list Event) : Prop :=
  match tr with
  | [] => True
  | AttemptFailed _ attempt error :: rest =>
      (attempt < maxRetries c -> retryable_is_false error = false ->
       exists rest', rest = Slept (wait_after c attempt error) :: rest') /\
      scheduled c rest
  | Slept _ :: rest => scheduled c rest
  end.

(** Sample run data.  The transport state counts the calls made; the
    transport fails twice with a rate-limit error carrying
    [retryAfter = 200], then succeeds; every call takes 50 ms. *)
Definition rateLimited200 : JsError :=
  {| message := "Rate limit exceeded"; code := Some "RATE_LIMIT_EXCEEDED";
     retryable := Some true; retryAfter := Some 200; stack := "" |}.

Definition flakyTransport (name : string) (d : EmailQueue.JobData) (now : Z)
    (calls : nat) : CircuitBreaker.Settled SendResult * nat :=
  ({| CircuitBreaker.settledAt := now + 50;
      CircuitBreaker.outcome :=
        if (calls <? 2)%nat then Throw rateLimited200
        else Return {| messageId := "m-3"; provider := "Primary";
                       timestamp := now + 50 |} |},
   S calls).

(** The rate-limit failures of the two mock transports.
    [PrimaryEmailProvider.sendEmail] sets [error.retryAfter = 5], which
    its comment reads as 5 seconds; [SecondaryEmailProvider.sendEmail]
    sets [error.retryAfter = 10000], which its comment reads as 10
    seconds. *)
Definition primaryRateLimit : JsError :=
  {| message := "Rate limit exceeded"; code := Some "RATE_LIMIT_EXCEEDED";
     retryable := Some true; retryAfter := Some 5; stack := "" |}.

Definition secondaryQuota : JsError :=
  {| message := "Daily quota exceeded"; code := Some "QUOTA_EXCEEDED";
     retryable := Some true; retryAfter := Some 10000; stack := "" |}.

(** The durations the two transports document, in milliseconds. *)
Definition fiveSeconds : Z := 5 * 1000.
Definition tenSeconds : Z := 10 * 1000.

(** A transport that answers twice with the given failure, then
    delivers; every call takes 50 ms. *)
Definition failsTwice (error : JsError) (name : string)
    (d : EmailQueue.JobData) (now : Z) (calls : nat)
    : CircuitBreaker.Settled SendResult * nat :=
  ({| CircuitBreaker.settledAt := now + 50;
      CircuitBreaker.outcome :=
        if (calls <? 2)%nat then Throw error
        else Return {| messageId := "m-3"; provider := name;
                       timestamp := now + 50 |} |},
   S calls).

Definition anyAddress (address : string) : bool := true.

Definition request_r5 : EmailQueue.JobData :=
  {| EmailQueue.to := "a@b.co"; EmailQueue.subject := "s";
     EmailQueue.body := "x"; EmailQueue.idempotencyKey := "r5";
     EmailQueue.data_priority := None; EmailQueue.data_delay := None |}.

Definition freshService : Service nat := create defaultConfig 0 0%nat.

(** The same service with the queue switched off: requests are processed
    inside [sendEmail]. *)
Definition directService : Service nat :=
  create {| maxRetries := 3; initialRetryDelay := 1000;
            maxRetryDelay := 30000; retryMultiplier := 2;
            enableCircuitBreaker := true; enableRateLimit := true;
            enableQueue := false |} 0 0%nat.

End EmailService.

(** * Properties *)

(** ** The circuit breaker *)
Module CircuitBreakerFacts.
Import CircuitBreaker.
Local Open Scope Z_scope.

Lemma onFailure_failureCount now error b :
  failureCount (_onFailure now error b) = failureCount b + 1.
Proof.
  unfold _onFailure.
  destruct (retryable_is_false error); [reflexivity|].
  destruct (state b) eqn:Hs; simpl; rewrite ?Hs; simpl; try reflexivity.
  destruct (_ <=? _); reflexivity.
Qed.

Lemma onFailure_config now error b :
  config (_onFailure now error b) = config b.
Proof.
  unfold _onFailure.
  destruct (retryable_is_false error); [reflexivity|].
  destruct (state b) eqn:Hs; simpl; rewrite ?Hs; simpl; try reflexivity.
  destruct (_ <=? _); reflexivity.
Qed.

(** C1.  The claim: a failure with [retryable === false] leaves the
    failure counter alone and only retryable failures move the breaker
    towards [failureThreshold].  The handler adds one to [failureCount]
    before it looks at [retryable]: on a fresh breaker with threshold 5 a
    single authentication failure leaves the counter at 1, and after four
    such failures the first retryable failure already opens the circuit,
    although one retryable failure alone does not. *)
Theorem permanent_failure_is_counted :
  failureCount (_onFailure 1000 authFailed (create defaultConfig)) = 1 /\
  state (record_failures 1000
           [invalidEmail; invalidEmail; invalidEmail; invalidEmail;
            temporaryFailure]
           (create defaultConfig)) = OPEN /\
  state (record_failures 1000 [temporaryFailure] (create defaultConfig))
    = CLOSED.
Proof. repeat split; reflexivity. Qed.

(** C5, as stated, fails: a half-open breaker that records a failure
    with [retryable === false] stays half-open and keeps its deadline. *)
Lemma permanent_failure_keeps_half_open :
  ~ any_failure_reopens 41000 authFailed probingBreaker.
Proof.
  unfold any_failure_reopens. intros H.
  destruct (H eq_refl) as [Hstate _].
  vm_compute in Hstate. discriminate Hstate.
Qed.

(** C5, amended.  In the half-open state a failure whose [retryable] is
    not [false] sends the breaker back to open with
    [nextAttemptTime = now + timeout]; a failure with
    [retryable === false] leaves it half-open with its deadline as it
    was. *)
Theorem half_open_failure now error b :
  state b = HALF_OPEN ->
  (state (_onFailure now error b), nextAttemptTime (_onFailure now error b))
  = if retryable_is_false error
    then (HALF_OPEN, nextAttemptTime b)
    else (OPEN, Some (now + timeout (config b))).
Proof.
  intros Hs. unfold _onFailure.
  destruct (retryable_is_false error); simpl; rewrite Hs; reflexivity.
Qed.

Lemma half_open_failure_witness :
  state probingBreaker = HALF_OPEN /\
  (state (_onFailure 41000 temporaryFailure probingBreaker),
   nextAttemptTime (_onFailure 41000 temporaryFailure probingBreaker))
  = (OPEN, Some 71000) /\
  (state (_onFailure 41000 invalidEmail probingBreaker),
   nextAttemptTime (_onFailure 41000 invalidEmail probingBreaker))
  = (HALF_OPEN, Some 31000).
Proof.
  split; [reflexivity|]. split.
  - exact (half_open_failure 41000 temporaryFailure probingBreaker eq_refl).
  - exact (half_open_failure 41000 invalidEmail probingBreaker eq_refl).
Defined.

(** C10.  While the circuit is open and [now] is before
    [nextAttemptTime], [execute] throws an error with code
    [CIRCUIT_BREAKER_OPEN]; the wrapped function is not run (the state it
    acts on is returned as it was, whatever the function is) and the
    breaker, with all its counters and its deadline, is unchanged. *)
Theorem open_circuit_fails_fast {W R : Type} now (fn : W -> Settled R * W)
    (b : Breaker) (w : W) (t : Z) :
  state b = OPEN -> nextAttemptTime b = Some t -> now < t ->
  execute now fn b w
    = ({| settledAt := now; outcome := Throw (openError now b) |}, b, w) /\
  code (openError now b) = Some "CIRCUIT_BREAKER_OPEN".
Proof.
  intros Hs Ht Hlt. split; [|reflexivity].
  unfold execute, guard, before_next_attempt. rewrite Hs, Ht.
  destruct (Z.ltb_spec now t); [reflexivity | lia].
Qed.

Lemma open_circuit_fails_fast_witness :
  state trippedBreaker = OPEN /\
  nextAttemptTime trippedBreaker = Some 31000 /\
  2000 < 31000 /\
  execute 2000
    (fun calls : nat =>
       ({| settledAt := 2500; outcome := Return "sent" |}, S calls))
    trippedBreaker 0%nat
  = ({| settledAt := 2000; outcome := Throw (openError 2000 trippedBreaker) |},
     trippedBreaker, 0%nat).
Proof.
  split; [reflexivity|]. split; [reflexivity|]. split; [lia|].
  apply (open_circuit_fails_fast 2000 _ trippedBreaker 0%nat 31000);
    [reflexivity | reflexivity | lia].
Defined.

End CircuitBreakerFacts.

(** ** The idempotency store *)
Module IdempotencyFacts.
Import IdempotencyManager.
Local Open Scope Z_scope.

Lemma set_stores now key res st m :
  key <> "" ->
  set now key res st m
  = (Return (),
     with_cache m
       (<[key := {| idempotencyKey := key; result := res; status := st;
                    createdAt := now; expiresAt := now + ttl m;
                    updatedAt := None; attempts := None;
                    lastAttemptAt := None |}]> (cache m))).
Proof.
  intros Hk. unfold set, no_key. rewrite bool_decide_eq_false_2 by exact Hk.
  reflexivity.
Qed.

Lemma get_live now key m entry :
  key <> "" -> cache m !! key = Some entry -> now <= expiresAt entry ->
  get now key m = (Return (Some entry), m).
Proof.
  intros Hk He Hl. unfold get, no_key.
  rewrite bool_decide_eq_false_2 by exact Hk. rewrite He.
  destruct (Z.ltb_spec (expiresAt entry) now); [lia | reflexivity].
Qed.

Lemma get_ttl now key m : ttl (snd (get now key m)) = ttl m.
Proof.
  unfold get. destruct (no_key key); [reflexivity|].
  destruct (_ !! _); [|reflexivity].
  destruct (_ <? _); reflexivity.
Qed.




Lemma sweep_fold now (c0 m : gmap string Entry) :
  let r := map_fold (sweep_step now) (c0, 0) m in
  (forall key,
     fst r !! key =
       match m !! key with
       | Some entry => if decide (expired now entry) then None else c0 !! key
       | None => c0 !! key
       end) /\
  snd r = Z.of_nat (size (filter (fun kv => expired now kv.2) m)).
Proof.
  apply (map_fold_weak_ind
           (fun r m =>
              (forall key,
                 fst r !! key =
                   match m !! key with
                   | Some entry =>
                       if decide (expired now entry) then None else c0 !! key
                   | None => c0 !! key
                   end) /\
              snd r = Z.of_nat (size (filter (fun kv => expired now kv.2) m)))).
  - split.
    + intros key. rewrite lookup_empty. reflexivity.
    + rewrite map_filter_empty, map_size_empty. reflexivity.
  - intros i x m' r Hi [IHc IHn]. unfold sweep_step.
    destruct (Z.ltb_spec (expiresAt x) now) as [Hexp|Hlive]; simpl.
    + split.
      * intros key. destruct (decide (i = key)) as [->|Hne].
        -- rewrite lookup_delete_eq, lookup_insert_eq.
           rewrite decide_True by exact Hexp. reflexivity.
        -- rewrite lookup_delete_ne, lookup_insert_ne by done. apply IHc.
      * rewrite map_filter_insert_True by exact Hexp.
        rewrite map_size_insert_None.
        -- rewrite IHn. lia.
        -- apply map_lookup_filter_None. left. exact Hi.
    + split.
      * intros key. destruct (decide (i = key)) as [->|Hne].
        -- rewrite lookup_insert_eq.
           rewrite decide_False by (unfold expired; lia).
           rewrite IHc, Hi. reflexivity.
        -- rewrite lookup_insert_ne by done. apply IHc.
      * rewrite map_filter_insert_False by (unfold expired; simpl; lia).
        rewrite delete_id by exact Hi. exact IHn.
Qed.

Lemma sweep_keeps_live now (c : gmap string Entry) :
  fst (map_fold (sweep_step now) (c, 0) c)
  = filter (fun kv => ~ expired now kv.2) c.
Proof.
  apply map_eq. intros key.
  destruct (sweep_fold now c c) as [Hc _]. rewrite Hc.
  destruct (c !! key) as [entry|] eqn:Hk.
  - destruct (decide (expired now entry)) as [He|He].
    + symmetry. apply map_lookup_filter_None. right.
      intros x Hx. simpl. rewrite Hk in Hx. injection Hx as <-. tauto.
    + symmetry. apply map_lookup_filter_Some. split; [exact Hk | exact He].
  - symmetry. apply map_lookup_filter_None. left. exact Hk.
Qed.

(** C8.  [cleanupExpired] at instant [now] removes every entry with
    [expiresAt < now], leaves every other entry (and every absent key) as
    it was, and returns the number of entries removed. *)
Theorem cleanupExpired_exact now m :
  ttl (snd (cleanupExpired now m)) = ttl m /\
  (forall key entry, cache m !! key = Some entry -> expiresAt entry < now ->
     cache (snd (cleanupExpired now m)) !! key = None) /\
  (forall key entry, cache m !! key = Some entry -> now <= expiresAt entry ->
     cache (snd (cleanupExpired now m)) !! key = Some entry) /\
  (forall key, cache m !! key = None ->
     cache (snd (cleanupExpired now m)) !! key = None) /\
  fst (cleanupExpired now m)
  = Z.of_nat (size (filter (fun kv => expired now kv.2) (cache m))) /\
  Z.of_nat (size (cache m))
  = Z.of_nat (size (cache (snd (cleanupExpired now m))))
    + fst (cleanupExpired now m).
Proof.
  unfold cleanupExpired. simpl.
  destruct (sweep_fold now (cache m) (cache m)) as [Hc Hn].
  repeat split.
  - intros key entry Hk He. rewrite Hc, Hk.
    rewrite decide_True by exact He. reflexivity.
  - intros key entry Hk He. rewrite Hc, Hk.
    rewrite decide_False by (unfold expired; lia). reflexivity.
  - intros key Hk. rewrite Hc, Hk. reflexivity.
  - exact Hn.
  - rewrite Hn, sweep_keeps_live.
    rewrite <- (map_filter_union_complement (fun kv => expired now kv.2)
                  (cache m)) at 1.
    rewrite map_size_disj_union
      by apply map_disjoint_filter_complement.
    lia.
Qed.

Lemma cleanupExpired_exact_witness :
  fst (cleanupExpired 86401001 deliveredOnce) = 1 /\
  cache (snd (cleanupExpired 86401001 deliveredOnce)) !! "r1" = None /\
  cache (snd (cleanupExpired 86401000 deliveredOnce)) !! "r1"
  = cache deliveredOnce !! "r1".
Proof.
  destruct (cleanupExpired_exact 86401001 deliveredOnce)
    as (_ & Hgone & _ & _ & Hcount & _).
  destruct (cleanupExpired_exact 86401000 deliveredOnce)
    as (_ & _ & Hkept & _).
  split; [exact Hcount|]. split.
  - eapply Hgone; [reflexivity | simpl; lia].
  - eapply Hkept; [reflexivity | simpl; lia].
Defined.

(** C9.  For a key whose stored entry has [expiresAt < now], [get]
    returns [null] and deletes the entry: afterwards nothing is stored
    under the key, every other key holds what it held, and the TTL is the
    same.  An entry with [expiresAt = now] is returned and kept; and no
    entry that [get] returns is expired. *)
Theorem get_drops_expired now key m entry :
  key <> "" -> cache m !! key = Some entry ->
  (expiresAt entry < now ->
     get now key m = (Return None, with_cache m (delete key (cache m))) /\
     fst (get now key m) = Return None /\
     cache (snd (get now key m)) !! key = None /\
     (forall key', key' <> key ->
        cache (snd (get now key m)) !! key' = cache m !! key') /\
     ttl (snd (get now key m)) = ttl m) /\
  (expiresAt entry = now ->
     get now key m = (Return (Some entry), m) /\
     cache (snd (get now key m)) !! key = Some entry) /\
  (forall e, fst (get now key m) = Return (Some e) -> now <= expiresAt e).
Proof.
  intros Hk He. unfold get, no_key.
  rewrite bool_decide_eq_false_2 by exact Hk. rewrite He.
  destruct (Z.ltb_spec (expiresAt entry) now) as [Hlt|Hge].
  - split; [|split; [lia|intros e H; discriminate H]].
    intros _. split; [reflexivity|]. split; [reflexivity|]. simpl.
    split; [apply lookup_delete_eq|]. split; [|reflexivity].
    intros key' Hne. apply lookup_delete_ne. congruence.
  - split; [lia|]. split; [intros _; split; [reflexivity | exact He]|].
    intros e H. simpl in H. injection H as <-. exact Hge.
Qed.

Lemma get_drops_expired_witness :
  (get 86401001 "r1" deliveredOnce
   = (Return None,
      with_cache deliveredOnce (delete "r1" (cache deliveredOnce))) /\
   cache (snd (get 86401001 "r1" deliveredOnce)) !! "r1" = None)
  /\
  get 86401000 "r1" deliveredOnce
  = (Return (Some {| idempotencyKey := "r1";
                     result := <["completedAt" := VNum 1000]> firstOutcome;
                     status := completed; createdAt := 1000;
                     expiresAt := 86401000; updatedAt := None;
                     attempts := None; lastAttemptAt := None |}),
     deliveredOnce).
Proof.
  split.
  - destruct (proj1 (get_drops_expired 86401001 "r1" deliveredOnce _
                       ltac:(discriminate) ltac:(reflexivity)))
      as (Hget & _ & Hgone & _).
    + simpl. lia.
    + split; [exact Hget | exact Hgone].
  - refine (proj1 (proj1 (proj2 (get_drops_expired 86401000 "r1"
                                   deliveredOnce _ _ _)) _)).
    + discriminate.
    + reflexivity.
    + reflexivity.
Defined.

End IdempotencyFacts.

(** ** The rate limiter *)
Module RateLimiterFacts.
Import RateLimiter.
Local Open Scope Z_scope.

Lemma ceil_div_bounds a d :
  0 < d -> d * (ceil_div a d - 1) < a <= d * ceil_div a d.
Proof.
  intros Hd. unfold ceil_div.
  pose proof (Z.mul_div_le (- a) d Hd).
  pose proof (Z.mul_succ_div_gt (- a) d Hd).
  nia.
Qed.

(** C7, as stated, fails: a second check one millisecond after the only
    token was used is refused with [retryAfter = 60] (seconds), not with
    the 59999 milliseconds that remain in the window. *)
Lemma retryAfter_is_not_milliseconds :
  ~ exhaustion_reply_in_ms 1 client spentLimiter.
Proof.
  unfold exhaustion_reply_in_ms. intros H.
  destruct H as (_ & Hretry & _); [vm_compute; discriminate|].
  vm_compute in Hretry. discriminate Hretry.
Qed.

(** C7, amended.  Let [bucket] be the bucket of the request's key after
    the refill rule has been applied at [now].  If it holds no token, the
    check answers [allowed = false], stores the bucket with its tokens
    untouched, and reports [resetTime = lastRefill + windowMs] and
    [retryAfter] in whole seconds: the time left until [resetTime],
    divided by 1000 and rounded up.  If it
    holds a token, the check answers [allowed = true] and stores the
    bucket with exactly one token less. *)
Theorem checkLimit_tokens now req l :
  let key := keyGenerator (config l) req in
  let bucket := _refillBucket (config l) (bucket_for now key l) now in
  let left := lastRefill bucket + windowMs (config l) - now in
  (tokens bucket <= 0 ->
     allowed (fst (checkLimit now req l)) = false /\
     buckets (snd (checkLimit now req l)) !! key = Some bucket /\
     resetTime (fst (checkLimit now req l))
     = lastRefill bucket + windowMs (config l) /\
     exists seconds,
       res_retryAfter (fst (checkLimit now req l)) = Some seconds /\
       1000 * (seconds - 1) < left <= 1000 * seconds) /\
  (0 < tokens bucket ->
     allowed (fst (checkLimit now req l)) = true /\
     res_retryAfter (fst (checkLimit now req l)) = None /\
     exists bucket',
       buckets (snd (checkLimit now req l)) !! key = Some bucket' /\
       tokens bucket' = tokens bucket - 1 /\
       lastRefill bucket' = lastRefill bucket).
Proof.
  intros key bucket left. unfold checkLimit. fold key. fold bucket.
  destruct (Z.ltb_spec 0 (tokens bucket)) as [Hpos|Hnone]; simpl.
  - split; [lia|]. intros _. split; [reflexivity|]. split; [reflexivity|].
    eexists. split; [apply lookup_insert_eq|]. split; reflexivity.
  - split; [|lia]. intros _. split; [reflexivity|].
    split; [apply lookup_insert_eq|]. split; [reflexivity|].
    eexists. split; [reflexivity|]. apply ceil_div_bounds. lia.
Qed.

Lemma checkLimit_tokens_witness :
  allowed (fst (checkLimit 1 client spentLimiter)) = false /\
  resetTime (fst (checkLimit 1 client spentLimiter)) = 60000 /\
  buckets (snd (checkLimit 1 client spentLimiter)) !! "10.0.0.1"
  = Some {| tokens := 0; lastRefill := 0; requests := [0] |} /\
  allowed (fst (checkLimit 60000 client spentLimiter)) = true /\
  exists bucket',
    buckets (snd (checkLimit 60000 client spentLimiter)) !! "10.0.0.1"
    = Some bucket' /\
    tokens bucket' = 0.
Proof.
  destruct (proj1 (checkLimit_tokens 1 client spentLimiter))
    as (Hrefused & Hstored & Hreset & _); [vm_compute; discriminate|].
  destruct (proj2 (checkLimit_tokens 60000 client spentLimiter))
    as (Hallowed & _ & bucket' & Hstored' & Htokens & _); [reflexivity|].
  split; [exact Hrefused|]. split; [exact Hreset|]. split; [exact Hstored|].
  split; [exact Hallowed|]. exists bucket'. split; [exact Hstored'|].
  exact Htokens.
Defined.

End RateLimiterFacts.

(** ** The job queue *)
Module EmailQueueFacts.
Import EmailQueue.
Local Open Scope Z_scope.

Lemma scan_spec now q : forall i best bp,
  match scan now q i best bp with
  | None => best = None /\ Forall (fun x => ~ qualifies now bp x) q
  | Some k =>
      (best = Some k /\ Forall (fun x => ~ qualifies now bp x) q) \/
      (exists q1 job q2,
         q = q1 ++ job :: q2 /\ k = (i + length q1)%nat /\
         qualifies now bp job /\
         Forall (fun x => ready now x = true -> priority x < priority job) q1 /\
         Forall (fun x => ready now x = true -> priority x <= priority job) q2)
  end.
Proof.
  induction q as [|job q IH]; intros i best bp; simpl.
  - destruct best; [left|]; split; constructor.
  - destruct (ready now job) eqn:Hr; simpl.
    + destruct (Z.ltb_spec bp (priority job)) as [Hlt|Hge].
      * specialize (IH (S i) (Some i) (priority job)).
        destruct (scan now q (S i) (Some i) (priority job)) as [k|].
        -- right.
           destruct IH as [[Hk Hno]
                          |(q1 & j & q2 & -> & -> & [Hrj Hpj] & H1 & H2)].
           ++ injection Hk as <-. exists [], job, q. simpl.
              repeat split;
                [f_equal; lia | exact Hr | exact Hlt | constructor |].
              eapply Forall_impl; [exact Hno|]. intros x Hx Hrx.
              unfold qualifies in Hx.
              destruct (Z.lt_ge_cases (priority job) (priority x));
                [tauto | lia].
           ++ exists (job :: q1), j, q2. simpl.
              repeat split; [lia | exact Hrj | lia | | exact H2].
              constructor; [intros _; exact Hpj | exact H1].
        -- destruct IH as [Hk _]. discriminate Hk.
      * specialize (IH (S i) best bp).
        destruct (scan now q (S i) best bp) as [k|].
        -- destruct IH as [[Hk Hno]
                          |(q1 & j & q2 & -> & -> & [Hrj Hpj] & H1 & H2)].
           ++ left. split; [exact Hk|]. constructor; [|exact Hno].
              unfold qualifies. lia.
           ++ right. exists (job :: q1), j, q2. simpl.
              repeat split; [lia | exact Hrj | exact Hpj | | exact H2].
              constructor; [intros _; lia | exact H1].
        -- destruct IH as [Hk Hno]. split; [exact Hk|].
           constructor; [|exact Hno]. unfold qualifies. lia.
    + specialize (IH (S i) best bp).
      destruct (scan now q (S i) best bp) as [k|].
      * destruct IH as [[Hk Hno]|(q1 & j & q2 & -> & -> & [Hrj Hpj] & H1 & H2)].
        -- left. split; [exact Hk|]. constructor; [|exact Hno].
           unfold qualifies. rewrite Hr. intros [? _]. discriminate.
        -- right. exists (job :: q1), j, q2. simpl.
           repeat split; [lia | exact Hrj | exact Hpj | | exact H2].
           constructor; [rewrite Hr; discriminate | exact H1].
      * destruct IH as [Hk Hno]. split; [exact Hk|].
        constructor; [|exact Hno].
        unfold qualifies. rewrite Hr. intros [? _]. discriminate.
Qed.

Lemma getNextJob_spec now q :
  match _getNextJob now q with
  | (Some job, q') =>
      exists q1 q2,
        q = q1 ++ job :: q2 /\ q' = q1 ++ q2 /\
        ready now job = true /\ -1 < priority job /\
        Forall (fun x => ready now x = true -> priority x < priority job) q1 /\
        Forall (fun x => ready now x = true -> priority x <= priority job) q2
  | (None, q') =>
      q' = q /\ Forall (fun x => ready now x = true -> priority x <= -1) q
  end.
Proof.
  unfold _getNextJob.
  pose proof (scan_spec now q 0%nat None (-1)) as H.
  destruct (scan now q 0%nat None (-1)) as [k|].
  - destruct H as [[Hk _]|(q1 & j & q2 & -> & -> & [Hrj Hpj] & H1 & H2)];
      [discriminate Hk|].
    simpl. rewrite list_lookup_middle by reflexivity.
    exists q1, q2. rewrite delete_middle. repeat split; assumption.
  - destruct H as [_ Hno]. split; [reflexivity|].
    eapply Forall_impl; [exact Hno|]. intros x Hx Hr. unfold qualifies in Hx.
    destruct (Z.lt_ge_cases (-1) (priority x)); [tauto|lia].
Qed.

Lemma insertByPriority_spec job q :
  sorted q ->
  exists q1 q2,
    q = q1 ++ q2 /\ _insertByPriority job q = q1 ++ job :: q2 /\
    Forall (fun x => priority job <= priority x) q1 /\
    Forall (fun x => priority x < priority job) q2.
Proof.
  induction q as [|j q IH]; intros Hs; simpl.
  - exists [], []. repeat split; constructor.
  - destruct Hs as [Hle Hs].
    destruct (Z.ltb_spec (priority j) (priority job)) as [Hlt|Hge].
    + exists [], (j :: q). repeat split; [constructor|].
      constructor; [exact Hlt|].
      eapply Forall_impl; [exact Hle|]. simpl. intros. lia.
    + destruct (IH Hs) as (q1 & q2 & -> & -> & H1 & H2).
      exists (j :: q1), q2. repeat split; [|exact H2].
      constructor; [exact Hge | exact H1].
Qed.

Lemma sorted_app_cons q1 job q2 :
  sorted (q1 ++ q2) ->
  Forall (fun x => priority job <= priority x) q1 ->
  Forall (fun x => priority x < priority job) q2 ->
  sorted (q1 ++ job :: q2).
Proof.
  induction q1 as [|j q1 IH]; simpl; intros Hs H1 H2.
  - split; [|exact Hs]. eapply Forall_impl; [exact H2|]. simpl. intros. lia.
  - destruct Hs as [Hle Hs]. apply Forall_cons in H1 as [Hj H1].
    split; [|apply IH; assumption].
    apply Forall_app in Hle as [Hl1 Hl2].
    apply Forall_app. split; [exact Hl1|].
    constructor; [exact Hj | exact Hl2].
Qed.

Lemma sorted_app_remove q1 job q2 :
  sorted (q1 ++ job :: q2) -> sorted (q1 ++ q2).
Proof.
  induction q1 as [|j q1 IH]; simpl; intros Hs.
  - tauto.
  - destruct Hs as [Hle Hs]. split; [|apply IH; exact Hs].
    apply Forall_app in Hle as [Hl1 Hl2]. apply Forall_cons in Hl2 as [_ Hl2].
    apply Forall_app. split; assumption.
Qed.

(** Every operation on the queue keeps it in non-increasing order of
    priority, so the order holds in every state the queue can reach. *)
Lemma insert_keeps_sorted job q :
  sorted q -> sorted (_insertByPriority job q).
Proof.
  intros Hs.
  destruct (insertByPriority_spec job q Hs) as (q1 & q2 & Hq & -> & H1 & H2).
  apply sorted_app_cons; [rewrite <- Hq|..]; assumption.
Qed.

Lemma getNextJob_keeps_sorted now q :
  sorted q -> sorted (snd (_getNextJob now q)).
Proof.
  intros Hs. pose proof (getNextJob_spec now q) as H.
  destruct (_getNextJob now q) as [[job|] q']; simpl.
  - destruct H as (q1 & q2 & Hq & -> & _).
    apply (sorted_app_remove q1 job q2). rewrite <- Hq. exact Hs.
  - destruct H as [-> _]. exact Hs.
Qed.

Lemma add_keeps_sorted now jobId jobData options s :
  sorted (queue s) -> sorted (queue (snd (add now jobId jobData options s))).
Proof. intros Hs. simpl. apply insert_keeps_sorted. exact Hs. Qed.

Lemma take_jobs_keeps_sorted fuel : forall now s,
  sorted (queue s) -> sorted (queue (snd (take_jobs fuel now s))).
Proof.
  induction fuel as [|fuel IH]; intros now s Hs; simpl; [exact Hs|].
  destruct (_ <? _); [|exact Hs].
  pose proof (getNextJob_keeps_sorted now (queue s) Hs) as Hq.
  destruct (_getNextJob now (queue s)) as [[job|] q']; [|exact Hs].
  simpl in Hq.
  match goal with
  | |- context [take_jobs fuel now ?st] =>
      specialize (IH now st Hq); destruct (take_jobs fuel now st)
  end.
  exact IH.
Qed.

Lemma settle_keeps_sorted now job settled s :
  sorted (queue s) -> sorted (queue (_processJob_settle now job settled s)).
Proof.
  intros Hs. unfold _processJob_settle.
  destruct settled as [res|err]; [exact Hs|].
  destruct (_ && _); [|exact Hs].
  simpl. apply insert_keeps_sorted. exact Hs.
Qed.

(** C6, as stated, fails on the run [retryScenario]: at instant 30000
    jobs A and B are both ready with priority 5; B is selected although A
    was submitted first (A was queued again behind B when it was
    retried). *)
Lemma retried_job_loses_its_turn :
  ~ ties_by_submission 30000 (queue retryScenario).
Proof.
  unfold ties_by_submission. intros H.
  destruct (_getNextJob 30000 (queue retryScenario)) as [[job|] q'] eqn:Hnext;
    [|vm_compute in Hnext; discriminate Hnext].
  destruct (queue retryScenario !! 1%nat) as [other|] eqn:Hother;
    [|vm_compute in Hother; discriminate Hother].
  specialize (H job q' eq_refl other).
  assert (Hin : other ∈ queue retryScenario)
    by (apply list_elem_of_lookup; exists 1%nat; exact Hother).
  vm_compute in Hnext. injection Hnext as <- <-.
  vm_compute in Hother. injection Hother as <-.
  specialize (H Hin eq_refl eq_refl). simpl in H. lia.
Qed.

(** C6, amended.  On a queue kept by [_insertByPriority] (non-increasing
    priorities, all non-negative as the request validation ensures):

    - a job that is inserted, new or retried, is placed behind every
      queued job of the same or a higher priority and in front of every
      job of lower priority, the other jobs keeping their order;
    - the job selected at instant [now] is ready
      ([executeAfter] absent or at most [now]); no ready job has a higher
      priority; and every ready job of the same priority stands behind
      it in the queue.  The other jobs keep their order.  No job is
      selected only when no job is ready.

    So ties are broken by the order of insertion into the queue, where a
    retried job counts from its re-insertion, not from its submission. *)
Theorem selection_follows_queue_order now q job0 :
  sorted q -> Forall (fun x => 0 <= priority x) q ->
  (exists q1 q2,
     q = q1 ++ q2 /\ _insertByPriority job0 q = q1 ++ job0 :: q2 /\
     Forall (fun x => priority job0 <= priority x) q1 /\
     Forall (fun x => priority x < priority job0) q2 /\
     sorted (_insertByPriority job0 q)) /\
  match _getNextJob now q with
  | (Some job, q') =>
      exists q1 q2,
        q = q1 ++ job :: q2 /\ q' = q1 ++ q2 /\ sorted q' /\
        ready now job = true /\
        Forall (fun x => ready now x = true -> priority x < priority job) q1 /\
        Forall (fun x => ready now x = true -> priority x <= priority job) q2
  | (None, q') => q' = q /\ Forall (fun x => ready now x = false) q
  end.
Proof.
  intros Hs Hnn. split.
  - destruct (insertByPriority_spec job0 q Hs)
      as (q1 & q2 & Hq & Hins & H1 & H2).
    exists q1, q2. repeat split; try assumption.
    rewrite Hins. apply sorted_app_cons; [rewrite <- Hq|..]; assumption.
  - pose proof (getNextJob_spec now q) as H.
    destruct (_getNextJob now q) as [[job|] q'].
    + destruct H as (q1 & q2 & Hq & Hq' & Hr & _ & H1 & H2).
      exists q1, q2. repeat split; try assumption.
      rewrite Hq'. apply (sorted_app_remove q1 job q2). rewrite <- Hq. exact Hs.
    + destruct H as [Hq' Hno]. split; [exact Hq'|].
      rewrite Forall_forall in *. intros x Hx.
      specialize (Hno x Hx). specialize (Hnn x Hx). simpl in Hnn.
      destruct (ready now x); [|reflexivity]. specialize (Hno eq_refl). lia.
Qed.

Lemma selection_follows_queue_order_witness :
  sorted (queue retryScenario) /\
  Forall (fun x => 0 <= priority x) (queue retryScenario) /\
  exists q1 q2,
    queue retryScenario = q1 ++ q2 /\
    _insertByPriority jobC (queue retryScenario) = q1 ++ jobC :: q2.
Proof.
  assert (Hs : sorted (queue retryScenario)).
  { vm_compute. repeat constructor; discriminate. }
  assert (Hnn : Forall (fun x => 0 <= priority x) (queue retryScenario)).
  { vm_compute. repeat constructor; discriminate. }
  split; [exact Hs|]. split; [exact Hnn|].
  destruct (proj1 (selection_follows_queue_order 30000 (queue retryScenario)
                     jobC Hs Hnn)) as (q1 & q2 & Hq & Hins & _).
  exists q1, q2. split; assumption.
Defined.

End EmailQueueFacts.

(** ** The delivery engine *)
Module EmailServiceFacts.
Import EmailService.
Local Open Scope Z_scope.

Lemma queued_for_insert key job q :
  EmailQueue.idempotencyKey (EmailQueue.data job) = key ->
  EmailQueue.queued_for key (EmailQueue._insertByPriority job q)
  = S (EmailQueue.queued_for key q).
Proof.
  intros Hk. unfold EmailQueue.queued_for.
  induction q as [|j q IH]; simpl.
  - rewrite filter_cons_True by exact Hk. reflexivity.
  - destruct (_ <? _).
    + rewrite filter_cons_True by exact Hk. reflexivity.
    + destruct (decide (EmailQueue.idempotencyKey (EmailQueue.data j) = key)).
      * rewrite !filter_cons_True by assumption. simpl. f_equal. exact IH.
      * rewrite !filter_cons_False by assumption. exact IH.
Qed.

Lemma paced_decomp mr tr :
  paced mr tr ->
  forall before providerName attempt error after seconds,
    tr = before ++ AttemptFailed providerName attempt error :: after ->
    attempt < mr -> retryable_is_false error = false ->
    retryAfter error = Some seconds -> seconds <> 0 ->
    exists rest, after = Slept (seconds * 1000) :: rest.
Proof.
  intros Hp before. revert tr Hp.
  induction before as [|ev before IH];
    intros tr Hp p n e after seconds -> Hn Hr Hs Hnz.
  - simpl in Hp. destruct Hp as [Hp _]. exact (Hp Hn Hr seconds Hs Hnz).
  - simpl in Hp. destruct ev as [? ? ?|?].
    + destruct Hp as [_ Hp].
      exact (IH _ Hp p n e after seconds eq_refl Hn Hr Hs Hnz).
    + exact (IH _ Hp p n e after seconds eq_refl Hn Hr Hs Hnz).
Qed.

Section Engine.
Context {W : Type}.
Variable providerSend :
  string -> EmailQueue.JobData -> Z -> W ->
  CircuitBreaker.Settled SendResult * W.

Lemma note_attempt_frame p key n (s : Service W) :
  config (note_attempt p key n s) = config s /\
  trace (note_attempt p key n s) = trace s.
Proof.
  unfold note_attempt.
  destruct (IdempotencyManager.incrementAttempts _ _ _) as [[?|?] ?];
    split; reflexivity.
Qed.

Lemma call_provider_frame p d (s : Service W) :
  config (snd (call_provider providerSend p d s)) = config s /\
  trace (snd (call_provider providerSend p d s)) = trace s.
Proof.
  unfold call_provider.
  destruct (enableCircuitBreaker (config s)).
  - destruct (CircuitBreaker.execute _ _ _ _) as [[? ?] ?].
    split; reflexivity.
  - destruct (providerSend _ _ _ _) as [? ?]. split; reflexivity.
Qed.

Lemma retry_loop_paced remaining : forall p d attempt delay (s : Service W),
  config (snd (retry_loop providerSend remaining p d attempt delay s))
  = config s /\
  exists new,
    trace (snd (retry_loop providerSend remaining p d attempt delay s))
    = trace s ++ new /\
    paced (maxRetries (config s)) new.
Proof.
  induction remaining as [|remaining IH]; intros p d attempt delay s; simpl.
  - split; [reflexivity|]. exists []. rewrite app_nil_r.
    split; [reflexivity | exact I].
  - set (s1 := note_attempt p (EmailQueue.idempotencyKey d) (attempt + 1) s).
    destruct (note_attempt_frame p (EmailQueue.idempotencyKey d)
                (attempt + 1) s) as [Hc1 Ht1].
    fold s1 in Hc1, Ht1.
    destruct (call_provider_frame p d s1) as [Hc2 Ht2].
    destruct (call_provider providerSend p d s1) as [[result|error] s2];
      simpl in Hc2, Ht2.
    + simpl. split; [congruence|]. exists []. rewrite app_nil_r.
      split; [congruence|exact I].
    + rewrite Hc2, Hc1.
      destruct (Z.leb_spec (maxRetries (config s)) (attempt + 1))
        as [Hlast|Hmore]; simpl.
      * split; [congruence|].
        exists [AttemptFailed p (attempt + 1) error].
        split; [congruence|]. simpl. split; [|exact I]. intros. lia.
      * destruct (retryable_is_false error) eqn:Hr; simpl.
        -- split; [congruence|].
           exists [AttemptFailed p (attempt + 1) error].
           split; [congruence|]. simpl. split; [|exact I].
           intros; congruence.
        -- destruct (Z.ltb_spec (attempt + 1) (maxRetries (config s)));
             [|lia].
           match goal with
           | |- context [retry_loop _ _ _ _ _ ?dl ?st] =>
               destruct (IH p d (attempt + 1) dl st) as [Hc (new & Ht & Hp)]
           end.
           simpl in Hc, Ht, Hp. rewrite Hc2, Hc1 in Hp.
           split; [congruence|].
           eexists (AttemptFailed p (attempt + 1) error :: Slept _ :: new).
           split.
           ++ rewrite Ht, Ht2, Ht1. rewrite <- !app_assoc. reflexivity.
           ++ simpl. split; [|exact Hp].
              intros _ _ seconds Hs Hnz. rewrite Hs. simpl.
              destruct (Z.eqb_spec seconds 0); [contradiction|]. simpl.
              eexists. reflexivity.
Qed.

Variable emailRegex_test : string -> bool.

Lemma valid_has_key d :
  _validateEmailData emailRegex_test d = Return () ->
  EmailQueue.idempotencyKey d <> "".
Proof.
  unfold _validateEmailData. intros H.
  repeat (case_bool_decide; [discriminate H|]). assumption.
Qed.

(** In a run of [_sendWithProvider], every failed attempt that is not
    the last one ([attempt < maxRetries]), whose error is retryable
    ([retryable] is not [false]) and carries a non-zero [retryAfter], is
    followed at once by a sleep of [retryAfter * 1000] milliseconds; the
    value replaces the current backoff delay for that wait. *)
Lemma retryAfter_times_1000 providerName d (s : Service W) :
  exists new,
    trace (snd (_sendWithProvider providerSend providerName d s))
    = trace s ++ new /\
    forall before p attempt error after seconds,
      new = before ++ AttemptFailed p attempt error :: after ->
      attempt < maxRetries (config s) ->
      retryable_is_false error = false ->
      retryAfter error = Some seconds -> seconds <> 0 ->
      exists rest, after = Slept (seconds * 1000) :: rest.
Proof.
  unfold _sendWithProvider.
  destruct (retry_loop_paced (Z.to_nat (maxRetries (config s))) providerName d
              0 (initialRetryDelay (config s)) s) as [_ (new & Ht & Hp)].
  exists new. split; [exact Ht|]. apply paced_decomp. exact Hp.
Qed.

(** C3, amended.  With the queue enabled, let a valid request be
    submitted when the store holds no live entry for its key and no job
    for that key is queued.  The submission is answered with status
    [queued].  A second submission of the same request, made at any
    instant [later] up to the expiry of the entry and before the job is
    taken, is answered with the stored reply of the first one (status
    [queued] and the first job identifier, plus [completedAt]); it
    changes nothing in the service, so no new job is queued and the queue
    holds exactly one job for the key. *)
Theorem duplicate_gets_cached_reply jobId1 jobId2 later d (s : Service W) :
  let key := EmailQueue.idempotencyKey d in
  let first := sendEmail providerSend emailRegex_test jobId1 d s in
  let second :=
    sendEmail providerSend emailRegex_test jobId2 d
      (at_clock later (snd first)) in
  enableQueue (config s) = true ->
  _validateEmailData emailRegex_test d = Return () ->
  fst (IdempotencyManager.get (clock s) key (idempotency s)) = Return None ->
  later <= clock s + IdempotencyManager.ttl (idempotency s) ->
  EmailQueue.queued_for key (EmailQueue.queue (emailQueue s)) = 0%nat ->
  fst first = Return (queuedReply jobId1 key) /\
  fst second
  = Return (<["completedAt" := VNum (clock s)]> (queuedReply jobId1 key)) /\
  snd second = at_clock later (snd first) /\
  EmailQueue.queued_for key (EmailQueue.queue (emailQueue (snd second)))
  = 1%nat.
Proof.
  intros key first second Hq Hv Hget Hlater Hnone.
  pose proof (valid_has_key d Hv) as Hk. fold key in Hk.
  assert (Hfirst :
    first =
    (Return (queuedReply jobId1 key),
     let m := snd (IdempotencyManager.get (clock s) key (idempotency s)) in
     let m1 := snd (IdempotencyManager.markAsPending (clock s) key
                      (list_to_map
                         [("to", VStr (EmailQueue.to d));
                          ("subject", VStr (EmailQueue.subject d));
                          ("startedAt", VNum (clock s))]) m) in
     let q := snd (EmailQueue.add (clock s) jobId1
                     {| EmailQueue.to := EmailQueue.to d;
                        EmailQueue.subject := EmailQueue.subject d;
                        EmailQueue.body := EmailQueue.body d;
                        EmailQueue.idempotencyKey := key;
                        EmailQueue.data_priority :=
                          Some (default 0 (EmailQueue.data_priority d));
                        EmailQueue.data_delay :=
                          Some (default 0 (EmailQueue.data_delay d)) |}
                     EmailQueue.noOptions (emailQueue s)) in
     with_idempotency (with_emailQueue (with_idempotency s m1) q)
       (snd (IdempotencyManager.markAsCompleted (clock s) key
               (queuedReply jobId1 key) m1)))).
  { unfold first, sendEmail. fold key. rewrite Hv.
    destruct (IdempotencyManager.get (clock s) key (idempotency s)) as [r m].
    simpl in Hget. subst r. simpl. rewrite Hq. reflexivity. }
  split; [rewrite Hfirst; reflexivity|].
  assert (Hsecond :
    second =
    (Return (<["completedAt" := VNum (clock s)]> (queuedReply jobId1 key)),
     at_clock later (snd first))).
  { unfold second. rewrite Hfirst. cbn zeta. unfold sendEmail. fold key.
    rewrite Hv.
    cbn [snd clock idempotency at_clock with_idempotency with_emailQueue].
    unfold IdempotencyManager.markAsCompleted, IdempotencyManager.markAsPending.
    rewrite !IdempotencyFacts.set_stores by exact Hk.
    cbn [snd].
    rewrite (IdempotencyFacts.get_live later key _ _ Hk
               (lookup_insert_eq _ _ _)).
    2:{ cbn. rewrite IdempotencyFacts.get_ttl. exact Hlater. }
    cbn [IdempotencyManager.status IdempotencyManager.result].
    reflexivity. }
  split; [rewrite Hsecond; reflexivity|].
  split; [rewrite Hsecond; reflexivity|].
  rewrite Hsecond, Hfirst. simpl.
  rewrite queued_for_insert by reflexivity. rewrite Hnone. reflexivity.
Qed.
End Engine.

(** C4.  The engine sleeps [retryAfter * 1000] milliseconds after a
    retried failure that carries a hint.  For the rate-limit failure of
    the primary transport, whose hint is documented as 5 seconds, that is
    the hinted 5000 ms.  For the rate-limit failure of the secondary
    transport, whose hint is documented as 10 seconds, it is 10 000 000
    ms, a thousand times the hinted 10 000 ms.  The last two lines run the
    engine on a transport that fails twice in each way. *)
Theorem secondary_hint_is_overslept :
  (forall (W : Type) providerSend providerName d (s : Service W),
   exists new,
     trace (snd (_sendWithProvider providerSend providerName d s))
     = trace s ++ new /\
     forall before p attempt after,
       attempt < maxRetries (config s) ->
       (new = before ++ AttemptFailed p attempt primaryRateLimit :: after ->
        exists rest, after = Slept fiveSeconds :: rest) /\
       (new = before ++ AttemptFailed p attempt secondaryQuota :: after ->
        exists rest, after = Slept (1000 * tenSeconds) :: rest)) /\
  sleeps (trace (snd (_sendWithProvider (failsTwice primaryRateLimit)
                        "primary" request_r5 freshService)))
  = [fiveSeconds; fiveSeconds] /\
  sleeps (trace (snd (_sendWithProvider (failsTwice secondaryQuota)
                        "secondary" request_r5 freshService)))
  = [1000 * tenSeconds; 1000 * tenSeconds].
Proof.
  split; [|split; reflexivity].
  intros W providerSend providerName d s.
  destruct (retryAfter_times_1000 providerSend providerName d s)
    as (new & Ht & Hpaced).
  exists new. split; [exact Ht|].
  intros before p attempt after Hn. split; intros Hnew.
  - apply (Hpaced before p attempt primaryRateLimit after 5 Hnew Hn);
      [reflexivity | reflexivity | discriminate].
  - apply (Hpaced before p attempt secondaryQuota after 10000 Hnew Hn);
      [reflexivity | reflexivity | discriminate].
Qed.

(** The run of the scenario: two sleeps of 200000 ms, then success on the
    third attempt. *)
Lemma flaky_run :
  sleeps (trace (snd (_sendWithProvider flakyTransport "primary" request_r5
                        freshService)))
  = [200000; 200000] /\
  fst (_sendWithProvider flakyTransport "primary" request_r5 freshService)
  = Return (Some {| messageId := "m-3"; provider := "Primary";
                    timestamp := 400150 |}).
Proof. split; reflexivity. Qed.

(** C3, as stated, fails: the second submission of [r5], ten
    milliseconds after the first one was queued, is answered with status
    [queued], not [pending]. *)
Lemma duplicate_is_answered_queued :
  ~ duplicate_gets_pending flakyTransport anyAddress "job_1" "job_2" 10
      request_r5 freshService.
Proof.
  unfold duplicate_gets_pending. intros H.
  destruct H as [(reply & Hreply & Hstatus) _]; [reflexivity|].
  vm_compute in Hreply. injection Hreply as <-.
  vm_compute in Hstatus. discriminate Hstatus.
Qed.

Lemma duplicate_gets_cached_reply_witness :
  fst (sendEmail flakyTransport anyAddress "job_2" request_r5
         (at_clock 10
            (snd (sendEmail flakyTransport anyAddress "job_1" request_r5
                    freshService))))
  = Return (<["completedAt" := VNum 0]> (queuedReply "job_1" "r5")) /\
  EmailQueue.queued_for "r5"
    (EmailQueue.queue
       (emailQueue
          (snd (sendEmail flakyTransport anyAddress "job_2" request_r5
                  (at_clock 10
                     (snd (sendEmail flakyTransport anyAddress "job_1"
                             request_r5 freshService)))))))
  = 1%nat.
Proof.
  assert (Hlater : 10 <= clock freshService
                         + IdempotencyManager.ttl (idempotency freshService))
    by (simpl; lia).
  pose proof (duplicate_gets_cached_reply flakyTransport anyAddress
                "job_1" "job_2" 10 request_r5 freshService
                eq_refl eq_refl eq_refl Hlater eq_refl) as H.
  split; [exact (proj1 (proj2 H)) | exact (proj2 (proj2 (proj2 H)))].
Defined.

End EmailServiceFacts.

(** * Further properties of the code *)

(** ** The circuit breaker over a history of calls *)
Module CircuitBreakerLaws.
Import CircuitBreaker.
Local Open Scope Z_scope.

Lemma feed_cons ev history b :
  feed (ev :: history) b
  = feed history
      match snd ev with
      | Some error => _onFailure (fst ev) error b
      | None => _onSuccess (fst ev) b
      end.
Proof. reflexivity. Qed.

Lemma feed_app h1 h2 b : feed (h1 ++ h2) b = feed h2 (feed h1 b).
Proof. unfold feed. apply foldl_app. Qed.

Lemma feed_config history : forall b, config (feed history b) = config b.
Proof.
  induction history as [|[t [e|]] history IH]; intros b; [reflexivity|..];
    rewrite feed_cons, IH; simpl.
  - unfold _onFailure. destruct (retryable_is_false e); [reflexivity|].
    simpl. destruct (state b); simpl; try reflexivity.
    destruct (_ <=? _); reflexivity.
  - unfold _onSuccess. destruct (state b); simpl; try reflexivity.
    destruct (_ <=? _); reflexivity.
Qed.

Lemma failures_keep_open history : forall b,
  counted_failures history -> state b = OPEN ->
  state (feed history b) = OPEN /\
  nextAttemptTime (feed history b) = nextAttemptTime b.
Proof.
  induction history as [|[t o] history IH]; intros b Hf Hs; [auto|].
  apply Forall_cons in Hf as [(e & He & Hr) Hf]. simpl in He. subst o.
    rewrite feed_cons. simpl.
  destruct (IH (_onFailure t e b) Hf) as [H1 H2].
  - unfold _onFailure. rewrite Hr. simpl. rewrite Hs. reflexivity.
  - split; [exact H1|]. rewrite H2. unfold _onFailure. rewrite Hr. simpl.
    rewrite Hs. reflexivity.
Qed.

Lemma closed_run history : forall b,
  counted_failures history -> state b = CLOSED ->
  let n := Z.of_nat (length history) in
  (state (feed history b) = OPEN <->
   1 <= n /\ failureThreshold (config b) <= failureCount b + n) /\
  (state (feed history b) <> OPEN -> 
   state (feed history b) = CLOSED /\
   failureCount (feed history b) = failureCount b + n).
Proof.
  induction history as [|[t o] history IH]; intros b Hf Hs n.
  - simpl. rewrite Hs. subst n. simpl. split; [split; [discriminate | lia]|].
    intros _. split; [reflexivity | lia].
  - apply Forall_cons in Hf as [(e & He & Hr) Hf]. simpl in He. subst o.
    rewrite feed_cons. simpl.
    subst n. rewrite length_cons, Nat2Z.inj_succ.
    destruct (Z.leb_spec (failureThreshold (config b)) (failureCount b + 1))
      as [Hreach|Hbelow].
    + assert (Hopen : state (_onFailure t e b) = OPEN).
      { unfold _onFailure. rewrite Hr. simpl. rewrite Hs.
        destruct (Z.leb_spec (failureThreshold (config b))
                    (failureCount b + 1));
          [reflexivity | lia]. }
      destruct (failures_keep_open history _ Hf Hopen) as [Ho _].
      split; [|congruence]. split; [intros _; lia | intros _; exact Ho].
    + assert (Hstep : _onFailure t e b
                      = {| config := config b; state := CLOSED;
                           failureCount := failureCount b + 1;
                           successCount := successCount b;
                           lastFailureTime := Some t;
                           nextAttemptTime := nextAttemptTime b |}).
      { unfold _onFailure. rewrite Hr. simpl. rewrite Hs.
        destruct (Z.leb_spec (failureThreshold (config b))
                    (failureCount b + 1));
          [lia | reflexivity]. }
      rewrite Hstep. 
      match goal with |- context [feed history ?b1] =>
        destruct (IH b1 Hf eq_refl) as [Hiff Hcl] end.
      simpl in Hiff, Hcl. split.
      * rewrite Hiff. lia.
      * intros Hno. destruct (Hcl Hno) as [H1 H2]. split; [exact H1|lia].
Qed.

(** X1.  A closed breaker that records a run of failures that count
    ([retryable] is not [false]) is open afterwards exactly when the run
    is not empty and brings [failureCount] up to [failureThreshold]. *)
Theorem closed_opens_at_threshold history b :
  counted_failures history -> state b = CLOSED ->
  (state (feed history b) = OPEN <->
   1 <= Z.of_nat (length history) /\
   failureThreshold (config b)
   <= failureCount b + Z.of_nat (length history)).
Proof. intros Hf Hs. exact (proj1 (closed_run history b Hf Hs)). Qed.

Lemma closed_opens_at_threshold_witness :
  state (feed [(1, Some temporaryFailure); (2, Some temporaryFailure);
               (3, Some temporaryFailure); (4, Some temporaryFailure);
               (5, Some temporaryFailure)] (create defaultConfig)) = OPEN.
Proof.
  apply closed_opens_at_threshold.
  - repeat constructor; eexists; split; reflexivity.
  - reflexivity.
  - simpl. lia.
Defined.

(** X2.  A success recorded by a closed breaker wipes the failures seen
    before it: after the success only the failures that follow count
    towards [failureThreshold]. *)
Theorem success_forgets_failures before t after b :
  counted_failures before -> counted_failures after -> state b = CLOSED ->
  failureCount b + Z.of_nat (length before) < failureThreshold (config b) ->
  (state (feed (before ++ (t, None) :: after) b) = OPEN <->
   1 <= Z.of_nat (length after) /\
   failureThreshold (config b) <= Z.of_nat (length after)).
Proof.
  intros Hb Ha Hs Hlt.
  destruct (closed_run before b Hb Hs) as [Hiff Hcl].
  destruct Hcl as [Hc Hn]; [rewrite Hiff; lia|].
  rewrite feed_app, feed_cons. simpl.
  set (b1 := feed before b) in *.
  assert (Hs1 : state (_onSuccess t b1) = CLOSED)
    by (unfold _onSuccess; rewrite Hc; reflexivity).
  assert (Hf1 : failureCount (_onSuccess t b1) = 0)
    by (unfold _onSuccess; rewrite Hc; reflexivity).
  assert (Hc1 : config (_onSuccess t b1) = config b).
  { unfold _onSuccess. rewrite Hc. simpl. apply feed_config. }
  pose proof (proj1 (closed_run after _ Ha Hs1)) as H.
  rewrite Hf1, Hc1 in H. rewrite H. lia.
Qed.

Lemma success_forgets_failures_witness :
  state (feed ([(1, Some temporaryFailure); (2, Some temporaryFailure);
                (3, Some temporaryFailure); (4, Some temporaryFailure)]
               ++ (5, None)
                  :: [(6, Some temporaryFailure); (7, Some temporaryFailure)])
           (create defaultConfig)) = OPEN
  <-> 1 <= 2 /\ 5 <= 2.
Proof.
  apply (success_forgets_failures
           [(1, Some temporaryFailure); (2, Some temporaryFailure);
            (3, Some temporaryFailure); (4, Some temporaryFailure)]
           5 [(6, Some temporaryFailure); (7, Some temporaryFailure)]
           (create defaultConfig)).
  - repeat constructor; eexists; split; reflexivity.
  - repeat constructor; eexists; split; reflexivity.
  - reflexivity.
  - simpl. lia.
Defined.

Lemma successes_keep_closed history : forall b,
  successes history -> state b = CLOSED ->
  state (feed history b) = CLOSED /\
  (history <> [] -> failureCount (feed history b) = 0).
Proof.
  induction history as [|[t o] history IH]; intros b Hf Hs;
    [split; [exact Hs | congruence]|].
  apply Forall_cons in Hf as [He Hf]. simpl in He. subst o.
  rewrite feed_cons. simpl.
  assert (Hstep : state (_onSuccess t b) = CLOSED /\
                  failureCount (_onSuccess t b) = 0).
  { unfold _onSuccess. rewrite Hs. simpl. auto. }
  destruct Hstep as [H1 H2]. destruct (IH _ Hf H1) as [H3 H4].
  split; [exact H3|]. intros _. destruct history as [|ev history]; [exact H2|].
  apply H4. discriminate.
Qed.

(** X3.  A half-open breaker that records a run of successes is closed
    afterwards, with both counters at zero, exactly when the run is not
    empty and brings [successCount] up to [successThreshold]; otherwise it
    is still half-open and has counted the successes. *)
Theorem half_open_closes_at_threshold history : forall b,
  successes history -> state b = HALF_OPEN ->
  let n := Z.of_nat (length history) in
  let closes := 1 <= n /\ successThreshold (config b) <= successCount b + n in
  (closes ->
     state (feed history b) = CLOSED /\ failureCount (feed history b) = 0 /\
     successCount (feed history b) = 0) /\
  (~ closes ->
     state (feed history b) = HALF_OPEN /\
     successCount (feed history b) = successCount b + n).
Proof.
  induction history as [|[t o] history IH]; intros b Hf Hs n closes.
  - subst closes n. simpl. split; [lia|]. intros _. split; [exact Hs | lia].
  - apply Forall_cons in Hf as [He Hf]. simpl in He. subst o.
    rewrite feed_cons. simpl.
    subst closes n. rewrite length_cons, Nat2Z.inj_succ.
    destruct (Z.leb_spec (successThreshold (config b)) (successCount b + 1))
      as [Hreach|Hbelow].
    + assert (Hstep : state (_onSuccess t b) = CLOSED /\
                      failureCount (_onSuccess t b) = 0 /\
                      successCount (_onSuccess t b) = 0).
      { unfold _onSuccess. rewrite Hs. simpl.
        destruct (Z.leb_spec (successThreshold (config b))
                    (successCount b + 1));
          [simpl; auto | lia]. }
      destruct Hstep as (H1 & H2 & H3).
      destruct (successes_keep_closed history _ Hf H1) as [H4 H5].
      split; [|lia]. intros _. split; [exact H4|].
      split.
      * destruct history as [|ev history]; [exact H2|]. apply H5. discriminate.
      * clear -Hf H1 H3. revert H1 H3. generalize (_onSuccess t b).
        induction history as [|[t' o] history IH]; intros b' H1 H3; [exact H3|].
        apply Forall_cons in Hf as [He Hf]. simpl in He. subst o.
        rewrite feed_cons. simpl. apply IH; [exact Hf | |];
          unfold _onSuccess; rewrite H1; simpl; [reflexivity | exact H3].
    + assert (Hstep : _onSuccess t b
                      = {| config := config b; state := HALF_OPEN;
                           failureCount := failureCount b;
                           successCount := successCount b + 1;
                           lastFailureTime := lastFailureTime b;
                           nextAttemptTime := nextAttemptTime b |}).
      { unfold _onSuccess. rewrite Hs. simpl.
        destruct (Z.leb_spec (successThreshold (config b))
                    (successCount b + 1));
          [lia | reflexivity]. }
      rewrite Hstep.
      match goal with |- context [feed history ?b1] =>
        destruct (IH b1 Hf eq_refl) as [Hyes Hno] end.
      simpl in Hyes, Hno. split.
      * intros Hc. apply Hyes. lia.
      * intros Hc. destruct Hno as [H1 H2]; [lia|]. split; [exact H1 | lia].
Qed.

Lemma half_open_closes_at_threshold_witness :
  state (feed [(41000, None); (42000, None)] probingBreaker) = CLOSED /\
  failureCount (feed [(41000, None); (42000, None)] probingBreaker) = 0 /\
  successCount (feed [(41000, None); (42000, None)] probingBreaker) = 0.
Proof.
  apply (proj1 (half_open_closes_at_threshold [(41000, None); (42000, None)]
                  probingBreaker
                  ltac:(repeat constructor) eq_refl)).
  vm_compute. split; discriminate.
Defined.

(** X4.  [canExecute] tells what [execute] does at the same instant: when
    it answers [true] the wrapped function is run and its outcome is
    passed on; when it answers [false] the call is refused with the
    open-circuit error and neither the breaker nor the transport
    changes. *)
Theorem canExecute_decides_execute {W R : Type} now
    (fn : W -> Settled R * W) (b : Breaker) (w : W) :
  if canExecute now b
  then fst (fst (execute now fn b w)) = fst (fn w) /\
       snd (execute now fn b w) = snd (fn w)
  else execute now fn b w
       = ({| settledAt := now; outcome := Throw (openError now b) |}, b, w).
Proof.
  unfold canExecute, execute, guard.
  destruct (state b); simpl;
    try (destruct (fn w) as [s w']; destruct (outcome s); split; reflexivity).
  destruct (before_next_attempt now b); simpl; [reflexivity|].
  destruct (fn w) as [s w']; destruct (outcome s); split; reflexivity.
Qed.

(** X5.  Once the pause of an open breaker is over, the next call is let
    through.  If it fails with an error that counts, the breaker is open
    again with a pause counted from that failure; if it fails with
    [retryable === false], the breaker stays half-open; if it succeeds,
    the breaker closes when [successThreshold] is at most 1 and is
    half-open with one success otherwise. *)
Theorem probe_after_pause {W R : Type} now (fn : W -> Settled R * W)
    (b : Breaker) (w : W) (t : Z) :
  state b = OPEN -> nextAttemptTime b = Some t -> t <= now ->
  let settled := fst (fn w) in
  let b' := snd (fst (execute now fn b w)) in
  match outcome settled with
  | Throw error =>
      if retryable_is_false error
      then state b' = HALF_OPEN /\ nextAttemptTime b' = Some t
      else state b' = OPEN /\
           nextAttemptTime b' = Some (settledAt settled + timeout (config b))
  | Return _ =>
      if successThreshold (config b) <=? 1
      then state b' = CLOSED /\ failureCount b' = 0 /\ nextAttemptTime b' = None
      else state b' = HALF_OPEN /\ successCount b' = 1
  end.
Proof.
  intros Hs Ht Hle settled b'. subst settled b'.
  unfold execute, guard, before_next_attempt. rewrite Hs, Ht.
  destruct (Z.ltb_spec now t); [lia|].
  destruct (fn w) as [s w']. simpl.
  destruct (outcome s) as [r|e]; simpl.
  - unfold _onSuccess. simpl. change (0 + 1) with 1.
    destruct (successThreshold (config b) <=? 1); simpl; auto.
  - unfold _onFailure. simpl.
    destruct (retryable_is_false e); simpl; auto.
Qed.

Lemma probe_after_pause_witness :
  state (snd (fst (execute 40000
                     (fun calls : nat =>
                        ({| settledAt := 40500;
                            outcome := @Throw string temporaryFailure |},
                         S calls))
                     trippedBreaker 0%nat))) = OPEN /\
  nextAttemptTime
    (snd (fst (execute 40000
                 (fun calls : nat =>
                    ({| settledAt := 40500;
                        outcome := @Throw string temporaryFailure |},
                     S calls))
                 trippedBreaker 0%nat))) = Some (40500 + 30000).
Proof.
  apply (probe_after_pause 40000
           (fun calls : nat =>
              ({| settledAt := 40500;
                  outcome := @Throw string temporaryFailure |}, S calls))
           trippedBreaker 0%nat 31000);
    [reflexivity | reflexivity | lia].
Defined.

Lemma setState_well_formed now st b :
  0 <= failureCount b -> well_formed (_setState now st b).
Proof.
  intros Hf. destruct st; unfold well_formed; simpl;
    repeat split; try discriminate; try lia; try congruence; eauto.
Qed.

Ltac wf_crush :=
  unfold well_formed in *; simpl in *;
  repeat match goal with H : _ /\ _ |- _ => destruct H end;
  repeat split; intros;
  try discriminate; try lia; try congruence; eauto.

Lemma onSuccess_well_formed now b :
  well_formed b -> well_formed (_onSuccess now b).
Proof.
  unfold well_formed at 1, _onSuccess.
  destruct (state b) eqn:E; intros Hwf; [wf_crush | wf_crush |].
  cbv zeta. destruct (_ <=? _); simpl; wf_crush.
Qed.

Lemma onFailure_well_formed now e b :
  well_formed b -> well_formed (_onFailure now e b).
Proof.
  unfold well_formed at 1, _onFailure. cbv zeta.
  destruct (retryable_is_false e); [intros Hwf; wf_crush|].
  simpl. destruct (state b) eqn:E; intros Hwf; [|wf_crush|wf_crush].
  destruct (_ <=? _); wf_crush.
Qed.

(** X6.  The breaker keeps itself well formed: if an open circuit has a
    deadline, the success counter is zero outside the half-open state and
    no counter is negative, then the same holds after [execute] (whatever
    the wrapped function does), after [reset] and after [forceOpen]. *)
Theorem well_formed_is_kept {W R : Type} now (fn : W -> Settled R * W)
    (b : Breaker) (w : W) :
  well_formed b ->
  well_formed (snd (fst (execute now fn b w))) /\
  well_formed (reset now b) /\ well_formed (forceOpen now b).
Proof.
  intros Hwf. pose proof Hwf as (Ho & Hh & Hf & Hs).
  split; [|split; apply setState_well_formed; exact Hf].
  unfold execute, guard.
  assert (Hgo : forall b1, well_formed b1 ->
            well_formed
              (snd (fst (let '(s, w') := fn w in
                         match outcome s with
                         | Return _ => (s, _onSuccess (settledAt s) b1, w')
                         | Throw error =>
                             (s, _onFailure (settledAt s) error b1, w')
                         end)))).
  { intros b1 H1. destruct (fn w) as [s w']. destruct (outcome s); simpl.
    - apply onSuccess_well_formed. exact H1.
    - apply onFailure_well_formed. exact H1. }
  destruct (state b); try (apply Hgo; exact Hwf).
  destruct (before_next_attempt now b); [exact Hwf|].
  apply Hgo. apply setState_well_formed. exact Hf.
Qed.

Lemma well_formed_is_kept_witness :
  well_formed (create defaultConfig) /\
  well_formed
    (snd (fst (execute 10
                 (fun calls : nat =>
                    ({| settledAt := 20;
                        outcome := @Throw string temporaryFailure |},
                     S calls))
                 (create defaultConfig) 0%nat))).
Proof.
  assert (H : well_formed (create defaultConfig)).
  { unfold well_formed. simpl.
    split; [discriminate|]. split; [reflexivity|]. split; discriminate. }
  split; [exact H|].
  exact (proj1 (well_formed_is_kept 10 _ (create defaultConfig) 0%nat H)).
Defined.

(** X7.  [forceOpen] at instant [now] makes every call before
    [now + timeout] fail fast without running the wrapped function;
    [reset] puts the breaker in the closed state with both counters at
    zero and no deadline, so that the next call runs the wrapped
    function. *)
Theorem forced_open_and_reset {W R : Type} now now'
    (fn : W -> Settled R * W) (b : Breaker) (w : W) :
  now' < now + timeout (config b) ->
  execute now' fn (forceOpen now b) w
  = ({| settledAt := now';
        outcome := Throw (openError now' (forceOpen now b)) |},
     forceOpen now b, w) /\
  fst (fst (execute now' fn (reset now b) w)) = fst (fn w) /\
  snd (execute now' fn (reset now b) w) = snd (fn w) /\
  reset now b
  = {| config := config b; state := CLOSED; failureCount := 0;
       successCount := 0; lastFailureTime := lastFailureTime b;
       nextAttemptTime := None |}.
Proof.
  intros Hlt. split; [|split; [|split]].
  - unfold execute, guard, before_next_attempt, forceOpen. simpl.
    destruct (Z.ltb_spec now' (now + timeout (config b))); [reflexivity|lia].
  - unfold execute, guard, reset. simpl.
    destruct (fn w) as [s w']. destruct (outcome s); reflexivity.
  - unfold execute, guard, reset. simpl.
    destruct (fn w) as [s w']. destruct (outcome s); reflexivity.
  - reflexivity.
Qed.

Lemma forced_open_and_reset_witness :
  execute 1500
    (fun calls : nat =>
       ({| settledAt := 1600; outcome := Return "sent" |}, S calls))
    (forceOpen 1000 (create defaultConfig)) 0%nat
  = ({| settledAt := 1500;
        outcome :=
          Throw (openError 1500 (forceOpen 1000 (create defaultConfig))) |},
     forceOpen 1000 (create defaultConfig), 0%nat).
Proof.
  apply (forced_open_and_reset 1000 1500 _ (create defaultConfig) 0%nat).
  simpl. lia.
Defined.

(** X8.  [getTimeUntilNextAttempt] answers a number exactly for an open
    circuit with a (non-zero) deadline, and [null] in every other case.
    The number is the time left until the deadline, or zero once the
    deadline has passed; it is never negative, and it is zero exactly when
    [canExecute] answers [true]. *)
Theorem time_until_next_attempt now b :
  match getTimeUntilNextAttempt now b with
  | Some remaining =>
      state b = OPEN /\ truthy (nextAttemptTime b) = true /\
      (exists t, nextAttemptTime b = Some t /\ t <> 0 /\
                 remaining = Z.max 0 (t - now)) /\
      0 <= remaining /\
      (remaining = 0 <-> canExecute now b = true)
  | None => state b <> OPEN \/ truthy (nextAttemptTime b) = false
  end.
Proof.
  unfold getTimeUntilNextAttempt, canExecute, before_next_attempt.
  destruct (state b); try (left; discriminate).
  destruct (nextAttemptTime b) as [t|]; simpl; [|right; reflexivity].
  destruct (Z.eqb_spec t 0) as [|Hnz]; simpl; [right; reflexivity|].
  split; [reflexivity|]. split; [reflexivity|].
  split; [exists t; split; [reflexivity|]; split; [exact Hnz|];
          destruct (Z.ltb_spec 0 (t - now)); lia|].
  destruct (Z.ltb_spec 0 (t - now)), (Z.ltb_spec now t); simpl;
    split; try lia; split; intros; try lia; try discriminate; reflexivity.
Qed.

End CircuitBreakerLaws.

(** ** The idempotency store as a keyed store with expiry *)
Module IdempotencyLaws.
Import IdempotencyManager IdempotencyFacts.
Local Open Scope Z_scope.

Lemma get_expired now key m entry :
  key <> "" -> cache m !! key = Some entry -> expiresAt entry < now ->
  get now key m = (Return None, with_cache m (delete key (cache m))).
Proof.
  intros Hk He Hl. unfold get, no_key.
  rewrite bool_decide_eq_false_2 by exact Hk. rewrite He.
  destruct (Z.ltb_spec (expiresAt entry) now); [reflexivity | lia].
Qed.

Lemma get_absent now key m :
  key <> "" -> cache m !! key = None -> get now key m = (Return None, m).
Proof.
  intros Hk He. unfold get, no_key.
  rewrite bool_decide_eq_false_2 by exact Hk. rewrite He. reflexivity.
Qed.

(** X9.  What [set] stores under a non-empty key is what [get] returns
    for that key up to and including the instant [now + ttl]; from the
    next millisecond on [get] returns [null] and removes the entry. *)
Theorem set_then_get now later key res st m :
  key <> "" ->
  let stored := snd (set now key res st m) in
  let entry :=
    {| idempotencyKey := key; result := res; status := st;
       createdAt := now; expiresAt := now + ttl m; updatedAt := None;
       attempts := None; lastAttemptAt := None |} in
  get later key stored
  = if now + ttl m <? later
    then (Return None, with_cache m (delete key (cache m)))
    else (Return (Some entry), stored).
Proof.
  intros Hk stored entry. subst stored.
  rewrite set_stores by exact Hk. simpl.
  destruct (Z.ltb_spec (now + ttl m) later) as [Hlate|Hlive].
  - rewrite (get_expired later key _ entry Hk);
      [|apply lookup_insert_eq|exact Hlate].
    simpl. unfold with_cache. simpl. rewrite delete_insert_eq. reflexivity.
  - apply get_live; [exact Hk | apply lookup_insert_eq | exact Hlive].
Qed.

Lemma set_then_get_witness :
  get 86401000 "r1" (snd (set 1000 "r1" firstOutcome completed create))
  = (Return (Some {| idempotencyKey := "r1"; result := firstOutcome;
                     status := completed; createdAt := 1000;
                     expiresAt := 1000 + 86400000; updatedAt := None;
                     attempts := None; lastAttemptAt := None |}),
     snd (set 1000 "r1" firstOutcome completed create)) /\
  fst (get 86401001 "r1" (snd (set 1000 "r1" firstOutcome completed create)))
  = Return None.
Proof.
  split.
  - exact (set_then_get 1000 86401000 "r1" firstOutcome completed create
             ltac:(discriminate)).
  - exact (f_equal fst
             (set_then_get 1000 86401001 "r1" firstOutcome completed create
                ltac:(discriminate))).
Defined.

(** X10.  Every operation that takes a key refuses the empty key with
    the error "Idempotency key is required" and leaves the store as it
    was. *)
Theorem empty_key_is_refused now res st updates error m :
  get now "" m = (Throw keyRequired, m) /\
  set now "" res st m = (Throw keyRequired, m) /\
  markAsPending now "" res m = (Throw keyRequired, m) /\
  markAsCompleted now "" res m = (Throw keyRequired, m) /\
  markAsFailed now "" error m = (Throw keyRequired, m) /\
  update now "" updates m = (Throw keyRequired, m) /\
  incrementAttempts now "" m = (Throw keyRequired, m).
Proof. repeat split; reflexivity. Qed.

(** X11.  An operation on one key never changes what is stored under
    another key. *)
Theorem other_keys_untouched now key other res st updates m :
  other <> key ->
  cache (snd (get now key m)) !! other = cache m !! other /\
  cache (snd (set now key res st m)) !! other = cache m !! other /\
  cache (snd (update now key updates m)) !! other = cache m !! other /\
  cache (snd (incrementAttempts now key m)) !! other = cache m !! other /\
  cache (snd (delete_entry key m)) !! other = cache m !! other.
Proof.
  intros Hne.
  assert (Hget : cache (snd (get now key m)) !! other = cache m !! other).
  { unfold get. destruct (no_key key); [reflexivity|].
    destruct (cache m !! key); [|reflexivity].
    destruct (_ <? _); [|reflexivity]. simpl. apply lookup_delete_ne.
    congruence. }
  split; [exact Hget|]. split; [|split; [|split]].
  - unfold set. destruct (no_key key); [reflexivity|]. simpl.
    apply lookup_insert_ne. congruence.
  - unfold update. destruct (get now key m) as [[[e|]|e] m1] eqn:Hg;
      simpl in *; try exact Hget.
    rewrite lookup_insert_ne by congruence. exact Hget.
  - unfold incrementAttempts. destruct (get now key m) as [[[e|]|e] m1] eqn:Hg;
      simpl in *; try exact Hget.
    rewrite lookup_insert_ne by congruence. exact Hget.
  - simpl. apply lookup_delete_ne. congruence.
Qed.

Lemma other_keys_untouched_witness :
  cache (snd (set 2000 "r2" secondOutcome completed deliveredOnce)) !! "r1"
  = cache deliveredOnce !! "r1".
Proof.
  exact (proj1 (proj2 (other_keys_untouched 2000 "r2" "r1" secondOutcome
                         completed secondOutcome deliveredOnce
                         ltac:(discriminate)))).
Defined.

(** X12.  [update] on a live entry merges the updates into the stored
    result (an updated property wins) and stamps [updatedAt]; status,
    creation time and expiry stay as they were, so an update never
    extends the life of an entry.  On an absent key it throws "Idempotency
    key not found" and changes nothing; on an expired entry it throws the
    same error and the entry is removed. *)
Theorem update_merges_in_place now key updates m :
  key <> "" ->
  match cache m !! key with
  | Some entry =>
      if expiresAt entry <? now
      then update now key updates m
           = (Throw keyNotFound, with_cache m (delete key (cache m))) /\
           cache (snd (update now key updates m)) !! key = None
      else
        exists entry',
          update now key updates m
          = (Return (), with_cache m (<[key := entry']> (cache m))) /\
          cache (snd (update now key updates m)) !! key = Some entry' /\
          status entry' = status entry /\
          createdAt entry' = createdAt entry /\
          expiresAt entry' = expiresAt entry /\
          updatedAt entry' = Some now /\
          forall name,
            result entry' !! name
            = match updates !! name with
              | Some v => Some v
              | None => result entry !! name
              end
  | None => update now key updates m = (Throw keyNotFound, m)
  end.
Proof.
  intros Hk. unfold update.
  destruct (cache m !! key) as [entry|] eqn:He.
  - destruct (Z.ltb_spec (expiresAt entry) now) as [Hexp|Hlive].
    + rewrite (get_expired now key m entry Hk He Hexp).
      split; [reflexivity | apply lookup_delete_eq].
    + rewrite (get_live now key m entry Hk He Hlive).
      eexists. split; [reflexivity|].
      split; [apply lookup_insert_eq|]. simpl. repeat split.
      intros name. unfold spread. rewrite lookup_union.
      destruct (updates !! name), (result entry !! name); reflexivity.
  - rewrite (get_absent now key m Hk He). reflexivity.
Qed.

Lemma update_merges_in_place_witness :
  (update 86401001 "r1" secondOutcome deliveredOnce
   = (Throw keyNotFound,
      with_cache deliveredOnce (delete "r1" (cache deliveredOnce))) /\
   cache (snd (update 86401001 "r1" secondOutcome deliveredOnce)) !! "r1"
   = None) /\
  update 2000 "r9" secondOutcome deliveredOnce
  = (Throw keyNotFound, deliveredOnce).
Proof.
  split.
  - exact (update_merges_in_place 86401001 "r1" secondOutcome deliveredOnce
             ltac:(discriminate)).
  - exact (update_merges_in_place 2000 "r9" secondOutcome deliveredOnce
             ltac:(discriminate)).
Defined.

Lemma incrementAttempts_live now key m entry :
  key <> "" -> cache m !! key = Some entry -> now <= expiresAt entry ->
  exists entry',
    incrementAttempts now key m
    = (Return (currentAttempts entry + 1),
       with_cache m (<[key := entry']> (cache m))) /\
    currentAttempts entry' = currentAttempts entry + 1 /\
    status entry' = status entry /\
    expiresAt entry' = expiresAt entry.
Proof.
  intros Hk He Hl. unfold incrementAttempts.
  rewrite (get_live now key m entry Hk He Hl).
  eexists. split; [reflexivity|]. split; [|split; reflexivity].
  unfold currentAttempts at 1. simpl.
  destruct (Z.eqb_spec (currentAttempts entry + 1) 0) as [Hz|Hnz]; simpl.
  - rewrite lookup_insert_eq. congruence.
  - reflexivity.
Qed.

Lemma incrementAttempts_at_live times : forall key m entry,
  key <> "" -> cache m !! key = Some entry ->
  Forall (fun now => now <= expiresAt entry) times ->
  exists entry',
    fst (incrementAttempts_at times key m)
    = (fun i => Return (currentAttempts entry + Z.of_nat i))
        <$> seq 1 (length times) /\
    cache (snd (incrementAttempts_at times key m)) !! key = Some entry' /\
    currentAttempts entry'
    = currentAttempts entry + Z.of_nat (length times) /\
    status entry' = status entry /\
    expiresAt entry' = expiresAt entry.
Proof.
  induction times as [|now times IH]; intros key m entry Hk He Hl.
  - exists entry. simpl. split; [reflexivity|]. split; [exact He|].
    split; [lia|]. split; reflexivity.
  - apply Forall_cons in Hl as [Hnow Hl]. simpl.
    destruct (incrementAttempts_live now key m entry Hk He Hnow)
      as (e1 & Hstep & Hc1 & Hs1 & Hx1).
    rewrite Hstep.
    destruct (IH key (with_cache m (<[key := e1]> (cache m))) e1 Hk)
      as (e2 & Hrs & Hlk & Hc2 & Hs2 & Hx2).
    { simpl. apply lookup_insert_eq. }
    { rewrite Hx1. exact Hl. }
    destruct (incrementAttempts_at times key _) as [rs m2]. simpl in *.
    exists e2. split; [|split; [exact Hlk|split; [lia|split; congruence]]].
    f_equal. rewrite Hrs.
    change (list_fmap nat (Completion Z))
      with (@fmap list _ nat (Completion Z)).
    rewrite <- (fmap_S_seq 1), <- list_fmap_compose.
    apply list_fmap_ext. intros i x _. simpl. f_equal. lia.
Qed.

(** X13.  After [markAsPending] (with metadata that does not itself set
    [attempts]), successive calls of [incrementAttempts] made before the
    entry expires return 1, 2, 3, ...; the entry stays pending and its
    expiry is not moved. *)
Theorem attempts_are_counted now times key metadata m :
  key <> "" -> metadata !! "attempts" = None ->
  Forall (fun t => t <= now + ttl m) times ->
  let started := snd (markAsPending now key metadata m) in
  fst (incrementAttempts_at times key started)
  = (fun i => Return (Z.of_nat i)) <$> seq 1 (length times) /\
  exists entry,
    cache (snd (incrementAttempts_at times key started)) !! key = Some entry /\
    status entry = pending /\
    expiresAt entry = now + ttl m /\
    currentAttempts entry = Z.of_nat (length times).
Proof.
  intros Hk Hmeta Hl started. subst started.
  unfold markAsPending. rewrite set_stores by exact Hk. simpl.
  match goal with |- context [<[key := ?e]> (cache m)] => set (e0 := e) end.
  assert (Hc0 : currentAttempts e0 = 0).
  { unfold currentAttempts, e0. simpl. unfold spread.
    rewrite lookup_union, Hmeta. reflexivity. }
  destruct (incrementAttempts_at_live times key
              (with_cache m (<[key := e0]> (cache m))) e0 Hk)
    as (e' & Hrs & Hlk & Hc & Hs & Hx).
  { simpl. apply lookup_insert_eq. }
  { exact Hl. }
  split.
  - rewrite Hrs. apply list_fmap_ext. intros i x _. simpl. rewrite Hc0.
    f_equal.
  - exists e'. split; [exact Hlk|]. split; [exact Hs|]. split; [exact Hx|].
    rewrite Hc, Hc0. lia.
Qed.

Lemma attempts_are_counted_witness :
  fst (incrementAttempts_at [10; 20; 30] "r7"
         (snd (markAsPending 0 "r7" ∅ create)))
  = [Return 1; Return 2; Return 3].
Proof.
  refine (proj1 (attempts_are_counted 0 [10; 20; 30] "r7" ∅ create _ _ _)).
  - discriminate.
  - reflexivity.
  - repeat constructor; simpl; lia.
Defined.

Lemma stats_fold now (m : gmap string Entry) (init : Stats) :
  let r := map_fold (fun _ entry stats => count_entry now entry stats)
             init m in
  total r = total init /\
  expiredCount r
  = expiredCount init
    + Z.of_nat (size (filter (fun kv => expired now kv.2) m)) /\
  pendingCount r + completedCount r + failedCount r + expiredCount r
  = pendingCount init + completedCount init + failedCount init
    + expiredCount init + Z.of_nat (size m) /\
  pendingCount init <= pendingCount r /\
  completedCount init <= completedCount r /\
  failedCount init <= failedCount r.
Proof.
  apply (map_fold_weak_ind
           (fun r m =>
              total r = total init /\
              expiredCount r
              = expiredCount init
                + Z.of_nat (size (filter (fun kv => expired now kv.2) m)) /\
              pendingCount r + completedCount r + failedCount r
              + expiredCount r
              = pendingCount init + completedCount init + failedCount init
                + expiredCount init + Z.of_nat (size m) /\
              pendingCount init <= pendingCount r /\
              completedCount init <= completedCount r /\
              failedCount init <= failedCount r)).
  - rewrite map_filter_empty, map_size_empty. repeat split; lia.
  - intros i x m' r Hi (Ht & He & Hsum & Hp & Hc & Hf).
    rewrite map_size_insert_None by exact Hi. unfold count_entry.
    destruct (Z.ltb_spec (expiresAt x) now) as [Hexp|Hlive].
    + rewrite map_filter_insert_True by exact Hexp.
      rewrite map_size_insert_None
        by (apply map_lookup_filter_None; left; exact Hi).
      simpl. repeat split; lia.
    + rewrite map_filter_insert_False by (unfold expired; simpl; lia).
      rewrite delete_id by exact Hi.
      destruct (status x); simpl; repeat split; lia.
Qed.

(** X14.  The figures of [getStats] add up: [total] is the number of
    entries and equals pending + completed + failed + expired, no figure
    is negative, and [expired] is exactly the number of entries that
    [cleanupExpired] would remove at the same instant. *)
Theorem getStats_adds_up now m :
  let stats := getStats now m in
  total stats = Z.of_nat (size (cache m)) /\
  total stats
  = pendingCount stats + completedCount stats + failedCount stats
    + expiredCount stats /\
  0 <= pendingCount stats /\ 0 <= completedCount stats /\
  0 <= failedCount stats /\
  expiredCount stats = fst (cleanupExpired now m).
Proof.
  unfold getStats.
  match goal with |- context [map_fold _ ?i _] =>
    destruct (stats_fold now (cache m) i) as (Ht & He & Hsum & Hp & Hc & Hf)
  end.
  simpl in *. repeat split; try lia.
  unfold cleanupExpired. simpl.
  rewrite (proj2 (sweep_fold now (cache m) (cache m))). lia.
Qed.

(** X15.  Sweeping twice at the same instant is the same as sweeping
    once: the second [cleanupExpired] removes nothing and returns 0. *)
Theorem cleanupExpired_twice now m :
  cleanupExpired now (snd (cleanupExpired now m))
  = (0, snd (cleanupExpired now m)).
Proof.
  unfold cleanupExpired. simpl.
  rewrite !sweep_keeps_live.
  destruct (sweep_fold now
              (filter (fun kv => ~ expired now kv.2) (cache m))
              (filter (fun kv => ~ expired now kv.2) (cache m))) as [_ Hn].
  f_equal.
  - rewrite Hn.
    assert (Hnone : filter (fun kv => expired now kv.2)
                      (filter (fun kv => ~ expired now kv.2) (cache m))
                    = ∅).
    { apply map_empty. intros i. apply map_lookup_filter_None. right.
      intros x Hx Hexp. apply map_lookup_filter_Some in Hx as [_ Hlive].
      contradiction. }
    rewrite Hnone, map_size_empty. reflexivity.
  - unfold with_cache. simpl. f_equal.
    apply map_filter_id. intros i x Hx.
    apply map_lookup_filter_Some in Hx as [_ Hlive]. exact Hlive.
Qed.

(** X16.  The sweep is invisible to readers: at the instant of the sweep
    [get] answers the same for every key whether or not the sweep has
    run, and after the sweep [get] finds nothing left to delete. *)
Theorem sweep_is_invisible_to_get now key m :
  fst (get now key (snd (cleanupExpired now m))) = fst (get now key m) /\
  snd (get now key (snd (cleanupExpired now m)))
  = snd (cleanupExpired now m).
Proof.
  unfold cleanupExpired. simpl. rewrite sweep_keeps_live.
  unfold get. destruct (no_key key); [split; reflexivity|]. simpl.
  destruct (cache m !! key) as [entry|] eqn:He.
  - destruct (Z.ltb_spec (expiresAt entry) now) as [Hexp|Hlive].
    + rewrite (proj2 (map_lookup_filter_None _ _ _)); [split; reflexivity|].
      right. intros x Hx. simpl. rewrite He in Hx. injection Hx as <-.
      unfold expired. lia.
    + rewrite (map_lookup_filter_Some_2 _ _ _ entry He);
        [|unfold expired; simpl; lia].
      destruct (Z.ltb_spec (expiresAt entry) now); [lia|]. split; reflexivity.
  - rewrite (proj2 (map_lookup_filter_None _ _ _)); [split; reflexivity|].
    left. exact He.
Qed.

End IdempotencyLaws.

(** ** The rate limiter over a sequence of requests *)
Module RateLimiterLaws.
Import RateLimiter.
Local Open Scope Z_scope.

Lemma idle_sweep now (c : Config) (c0 m : gmap string Bucket) :
  let r := map_fold (idle_step c now) (c0, 0) m in
  (forall key,
     fst r !! key =
       match m !! key with
       | Some bucket => if decide (idle c now bucket) then None else c0 !! key
       | None => c0 !! key
       end) /\
  snd r = Z.of_nat (size (filter (fun kv => idle c now kv.2) m)).
Proof.
  apply (map_fold_weak_ind
           (fun r m =>
              (forall key,
                 fst r !! key =
                   match m !! key with
                   | Some bucket =>
                       if decide (idle c now bucket) then None else c0 !! key
                   | None => c0 !! key
                   end) /\
              snd r = Z.of_nat (size (filter (fun kv => idle c now kv.2) m)))).
  - split.
    + intros key. rewrite lookup_empty. reflexivity.
    + rewrite map_filter_empty, map_size_empty. reflexivity.
  - intros i x m' r Hi [IHc IHn]. unfold idle_step.
    destruct (Z.ltb_spec (windowMs c * 2) (now - lastRefill x)) as [Hexp|Hlive];
      simpl.
    + split.
      * intros key. destruct (decide (i = key)) as [->|Hne].
        -- rewrite lookup_delete_eq, lookup_insert_eq.
           rewrite decide_True by exact Hexp. reflexivity.
        -- rewrite lookup_delete_ne, lookup_insert_ne by done. apply IHc.
      * rewrite map_filter_insert_True by exact Hexp.
        rewrite map_size_insert_None.
        -- rewrite IHn. lia.
        -- apply map_lookup_filter_None. left. exact Hi.
    + split.
      * intros key. destruct (decide (i = key)) as [->|Hne].
        -- rewrite lookup_insert_eq.
           rewrite decide_False by (unfold idle; lia).
           rewrite IHc, Hi. reflexivity.
        -- rewrite lookup_insert_ne by done. apply IHc.
      * rewrite map_filter_insert_False by (unfold idle; simpl; lia).
        rewrite delete_id by exact Hi. exact IHn.
Qed.

(** X17.  [cleanupExpired] removes exactly the buckets whose last refill
    is more than two windows old, leaves the others as they are, and
    returns the number of buckets removed. *)
Theorem idle_buckets_are_swept now l :
  config (snd (cleanupExpired now l)) = config l /\
  (forall key,
     buckets (snd (cleanupExpired now l)) !! key
     = match buckets l !! key with
       | Some bucket =>
           if decide (windowMs (config l) * 2 < now - lastRefill bucket)
           then None else Some bucket
       | None => None
       end) /\
  fst (cleanupExpired now l)
  = Z.of_nat (size (buckets l))
    - Z.of_nat (size (buckets (snd (cleanupExpired now l)))).
Proof.
  unfold cleanupExpired. simpl.
  destruct (idle_sweep now (config l) (buckets l) (buckets l)) as [Hc Hn].
  split; [reflexivity|]. split.
  - intros key. rewrite Hc. destruct (buckets l !! key) as [b|] eqn:Hb;
      [|reflexivity].
    unfold idle. destruct (decide _); reflexivity.
  - rewrite Hn.
    assert (Hlive : fst (map_fold (idle_step (config l) now) (buckets l, 0)
                           (buckets l))
                    = filter (fun kv => ~ idle (config l) now kv.2)
                        (buckets l)).
    { apply map_eq. intros key. rewrite Hc.
      destruct (buckets l !! key) as [b|] eqn:Hb.
      - destruct (decide (idle (config l) now b)) as [He|He]; symmetry.
        + apply map_lookup_filter_None. right.
          intros x Hx. simpl. rewrite Hb in Hx. injection Hx as <-. tauto.
        + apply map_lookup_filter_Some. split; [exact Hb | exact He].
      - symmetry. apply map_lookup_filter_None. left. exact Hb. }
    rewrite Hlive.
    rewrite <- (map_filter_union_complement
                  (fun kv => idle (config l) now kv.2) (buckets l)) at 2.
    rewrite map_size_disj_union by apply map_disjoint_filter_complement.
    lia.
Qed.

Lemma check_in_window now req l bucket :
  buckets l !! keyGenerator (config l) req = Some bucket ->
  now - lastRefill bucket < windowMs (config l) ->
  checkLimit now req l
  = if 0 <? tokens bucket then
      ({| allowed := true; res_tokens := tokens bucket - 1;
          resetTime := lastRefill bucket + windowMs (config l);
          res_retryAfter := None |},
       {| config := config l;
          buckets :=
            <[keyGenerator (config l) req :=
                {| tokens := tokens bucket - 1;
                   lastRefill := lastRefill bucket;
                   requests := requests bucket ++ [now] |}]> (buckets l) |})
    else
      ({| allowed := false; res_tokens := 0;
          resetTime := lastRefill bucket + windowMs (config l);
          res_retryAfter :=
            Some (ceil_div (lastRefill bucket + windowMs (config l) - now)
                    1000) |},
       {| config := config l;
          buckets := <[keyGenerator (config l) req := bucket]> (buckets l) |}).
Proof.
  intros Hb Hw. unfold checkLimit, bucket_for. rewrite Hb.
  unfold _refillBucket.
  destruct (Z.leb_spec (windowMs (config l)) (now - lastRefill bucket)); [lia|].
  reflexivity.
Qed.

(** X18.  Within one window a client is admitted exactly as many times as
    its bucket has tokens: of a sequence of checks made before the window
    ends, the first [min(tokens, n)] are allowed and all later ones are
    refused; the bucket loses one token per admitted check and its window
    start does not move. *)
Theorem burst_admits_what_is_left now_list : forall req l bucket,
  buckets l !! keyGenerator (config l) req = Some bucket ->
  0 <= tokens bucket ->
  Forall (fun now => now - lastRefill bucket < windowMs (config l)) now_list ->
  let admitted := Nat.min (Z.to_nat (tokens bucket)) (length now_list) in
  allowed <$> fst (checkLimit_at now_list req l)
  = replicate admitted true ++ replicate (length now_list - admitted) false /\
  config (snd (checkLimit_at now_list req l)) = config l /\
  exists bucket',
    buckets (snd (checkLimit_at now_list req l))
      !! keyGenerator (config l) req = Some bucket' /\
    tokens bucket' = tokens bucket - Z.of_nat admitted /\
    lastRefill bucket' = lastRefill bucket.
Proof.
  induction now_list as [|now times IH];
    intros req l bucket Hb Hpos Hw admitted.
  - subst admitted. rewrite Nat.min_0_r. simpl. split; [reflexivity|].
    split; [reflexivity|]. exists bucket. split; [exact Hb|].
    split; [lia | reflexivity].
  - apply Forall_cons in Hw as [Hnow Hw]. simpl.
    rewrite (check_in_window now req l bucket Hb Hnow).
    destruct (Z.ltb_spec 0 (tokens bucket)) as [Hsome|Hnone].
    + match goal with |- context [checkLimit_at times req ?l1] =>
        destruct (IH req l1 {| tokens := tokens bucket - 1;
                               lastRefill := lastRefill bucket;
                               requests := requests bucket ++ [now] |})
          as (Hflags & Hcfg & b' & Hb' & Ht' & Hl');
        [simpl; apply lookup_insert_eq | simpl; lia | exact Hw |];
        destruct (checkLimit_at times req l1) as [rs l2]
      end.
      simpl in *. subst admitted.
      replace (Z.to_nat (tokens bucket))
        with (S (Z.to_nat (tokens bucket - 1))) by lia.
      simpl. split; [f_equal; exact Hflags|]. split; [exact Hcfg|].
      exists b'. split; [exact Hb'|]. split; [lia|exact Hl'].
    + match goal with |- context [checkLimit_at times req ?l1] =>
        destruct (IH req l1 bucket)
          as (Hflags & Hcfg & b' & Hb' & Ht' & Hl');
        [simpl; apply lookup_insert_eq | exact Hpos | exact Hw |];
        destruct (checkLimit_at times req l1) as [rs l2]
      end.
      simpl in *. subst admitted.
      replace (Z.to_nat (tokens bucket)) with 0%nat in * by lia.
      simpl in *. rewrite Nat.sub_0_r in Hflags.
      split; [f_equal; exact Hflags|]. split; [exact Hcfg|].
      exists b'. split; [exact Hb'|]. split; [lia|exact Hl'].
Qed.

Lemma burst_admits_what_is_left_witness :
  allowed <$> fst (checkLimit_at [10; 20; 30; 40] client twoLeft)
  = [true; true; false; false].
Proof.
  refine (proj1 (burst_admits_what_is_left [10; 20; 30; 40] client twoLeft
                   {| tokens := 2; lastRefill := 0; requests := [0; 0; 0] |}
                   _ _ _)).
  - reflexivity.
  - simpl. lia.
  - repeat constructor; simpl; lia.
Defined.

(** X19.  A check for a key that has no bucket yet, or whose window has
    run out ([now - lastRefill >= windowMs]), is allowed whenever the
    capacity is positive, whatever tokens were left: the bucket is refilled
    to [maxRequests], a new window starts at [now], and one token is taken
    for the request. *)
Theorem fresh_window_admits now req l :
  0 < maxRequests (config l) ->
  match buckets l !! keyGenerator (config l) req with
  | Some bucket => windowMs (config l) <= now - lastRefill bucket
  | None => True
  end ->
  fst (checkLimit now req l)
  = {| allowed := true; res_tokens := maxRequests (config l) - 1;
       resetTime := now + windowMs (config l); res_retryAfter := None |} /\
  exists bucket',
    buckets (snd (checkLimit now req l)) !! keyGenerator (config l) req
    = Some bucket' /\
    tokens bucket' = maxRequests (config l) - 1 /\
    lastRefill bucket' = now.
Proof.
  intros Hcap Hstale. unfold checkLimit, bucket_for, _refillBucket.
  destruct (buckets l !! keyGenerator (config l) req) as [bucket|]; simpl.
  - destruct (Z.leb_spec (windowMs (config l)) (now - lastRefill bucket));
      [|lia]. simpl.
    destruct (Z.ltb_spec 0 (maxRequests (config l))); [|lia]. simpl.
    split; [reflexivity|]. eexists. split; [apply lookup_insert_eq|].
    split; reflexivity.
  - destruct (windowMs (config l) <=? now - now); simpl;
      (destruct (Z.ltb_spec 0 (maxRequests (config l))); [|lia]); simpl;
      (split; [reflexivity|]); eexists;
      (split; [apply lookup_insert_eq|]); split; reflexivity.
Qed.

Lemma fresh_window_admits_witness :
  fst (checkLimit 60000 client spentLimiter)
  = {| allowed := true; res_tokens := 0; resetTime := 120000;
       res_retryAfter := None |}.
Proof.
  refine (proj1 (fresh_window_admits 60000 client spentLimiter _ _)).
  - reflexivity.
  - vm_compute. discriminate.
Defined.

(** X20.  With a non-negative capacity, [checkLimit] keeps every bucket
    between zero and [maxRequests] tokens; the number of tokens it reports
    lies in the same range, and is below [maxRequests] when the request
    was allowed. *)
Theorem capacity_is_respected now req l :
  0 <= maxRequests (config l) -> within_capacity l ->
  within_capacity (snd (checkLimit now req l)) /\
  0 <= res_tokens (fst (checkLimit now req l)) <= maxRequests (config l) /\
  (allowed (fst (checkLimit now req l)) = true ->
   res_tokens (fst (checkLimit now req l)) < maxRequests (config l)).
Proof.
  intros Hcap Hwf.
  set (key := keyGenerator (config l) req).
  set (bucket := _refillBucket (config l) (bucket_for now key l) now).
  assert (Hb : 0 <= tokens bucket <= maxRequests (config l)).
  { unfold bucket, _refillBucket, bucket_for.
    destruct (buckets l !! key) as [b|] eqn:Hk; simpl.
    - destruct (_ <=? _); simpl; [lia | exact (Hwf key b Hk)].
    - destruct (_ <=? _); simpl; lia. }
  unfold checkLimit. fold key. fold bucket.
  destruct (Z.ltb_spec 0 (tokens bucket)) as [Hsome|Hnone]; simpl.
  - split; [|split; [lia | intros _; lia]].
    intros k b. simpl. destruct (decide (key = k)) as [<-|Hne].
    + rewrite lookup_insert_eq. intros [= <-]. simpl. lia.
    + rewrite lookup_insert_ne by exact Hne. apply Hwf.
  - split; [|split; [lia | discriminate]].
    intros k b. simpl. destruct (decide (key = k)) as [<-|Hne].
    + rewrite lookup_insert_eq. intros [= <-]. exact Hb.
    + rewrite lookup_insert_ne by exact Hne. apply Hwf.
Qed.

Lemma capacity_is_respected_witness :
  within_capacity twoLeft /\
  within_capacity (snd (checkLimit 10 client twoLeft)).
Proof.
  assert (H : within_capacity twoLeft).
  { intros key bucket Hb. unfold twoLeft in Hb. simpl in Hb.
    apply lookup_singleton_Some in Hb as [_ <-]. simpl. lia. }
  split; [exact H|].
  refine (proj1 (capacity_is_respected 10 client twoLeft _ H)).
  simpl. lia.
Defined.

End RateLimiterLaws.

(** ** The job queue: delays, worker slots, retries, history *)
Module EmailQueueLaws.
Import EmailQueue EmailQueueFacts.
Local Open Scope Z_scope.

Lemma add_queue now jobId jobData options s :
  queue (snd (add now jobId jobData options s))
  = _insertByPriority (new_job now jobId jobData options s) (queue s).
Proof. reflexivity. Qed.

Lemma elem_of_insertByPriority x job q :
  x ∈ _insertByPriority job q <-> x = job \/ x ∈ q.
Proof.
  induction q as [|j q IH]; simpl.
  - rewrite list_elem_of_singleton. rewrite elem_of_nil. tauto.
  - destruct (_ <? _).
    + rewrite elem_of_cons. tauto.
    + rewrite !elem_of_cons, IH. tauto.
Qed.

Lemma getNextJob_ready now q job q' :
  _getNextJob now q = (Some job, q') -> ready now job = true /\ job ∈ q.
Proof.
  intros H. pose proof (getNextJob_spec now q) as Hs. rewrite H in Hs.
  destruct Hs as (q1 & q2 & -> & _ & Hr & _). split; [exact Hr|].
  apply elem_of_app. right. apply elem_of_cons. left. reflexivity.
Qed.

(** X21.  A job added with a positive delay is not selected before its
    time: while [now] is before [executeAfter], whatever [_getNextJob]
    selects from the queue is one of the jobs that were there before, and
    the delayed job is still queued afterwards. *)
Theorem delayed_job_waits now0 now jobId jobData options s job q' :
  let d := or_zero (opt_delay options) (data_delay jobData) in
  0 < d -> now < now0 + d -> now0 + d <> 0 ->
  _getNextJob now (queue (snd (add now0 jobId jobData options s)))
  = (Some job, q') ->
  job ∈ queue s /\ job <> new_job now0 jobId jobData options s /\
  new_job now0 jobId jobData options s ∈ q'.
Proof.
  intros d Hd Hnow Hnz Hnext. rewrite add_queue in Hnext.
  set (added := new_job now0 jobId jobData options s) in *.
  assert (Hwait : ready now added = false).
  { unfold ready, added, new_job. simpl. fold d.
    destruct (Z.ltb_spec 0 d); [|lia]. simpl.
    destruct (Z.eqb_spec (now0 + d) 0); [lia|]. simpl.
    destruct (Z.leb_spec (now0 + d) now); [lia | reflexivity]. }
  destruct (getNextJob_ready _ _ _ _ Hnext) as [Hr Hin].
  assert (Hne : job <> added) by (intros ->; congruence).
  apply elem_of_insertByPriority in Hin as [->|Hin]; [congruence|].
  split; [exact Hin|]. split; [exact Hne|].
  pose proof (getNextJob_spec now (_insertByPriority added (queue s))) as Hs.
  rewrite Hnext in Hs. destruct Hs as (q1 & q2 & Hq & -> & _).
  assert (Ha : added ∈ q1 ++ job :: q2).
  { rewrite <- Hq. apply elem_of_insertByPriority. left. reflexivity. }
  rewrite elem_of_app, elem_of_cons in Ha. rewrite elem_of_app.
  destruct Ha as [Ha|[Ha|Ha]]; [left; exact Ha | congruence | right; exact Ha].
Qed.

Lemma delayed_job_waits_witness :
  exists job q',
    _getNextJob 2000 (queue (snd (add 1005 "job_B" jobDataB noOptions oneJob)))
    = (Some job, q') /\
    job ∈ queue oneJob /\
    new_job 1005 "job_B" jobDataB noOptions oneJob ∈ q'.
Proof.
  destruct (_getNextJob 2000
              (queue (snd (add 1005 "job_B" jobDataB noOptions oneJob))))
    as [[job|] q'] eqn:Hnext; [|vm_compute in Hnext; discriminate Hnext].
  exists job, q'. split; [reflexivity|].
  destruct (delayed_job_waits 1005 2000 "job_B" jobDataB noOptions oneJob
              job q') as (Hold & _ & Hkept);
    [reflexivity | reflexivity | discriminate | exact Hnext |].
  split; assumption.
Defined.

Lemma getNextJob_length now q job q' :
  _getNextJob now q = (Some job, q') -> length q = S (length q').
Proof.
  intros H. pose proof (getNextJob_spec now q) as Hs. rewrite H in Hs.
  destruct Hs as (q1 & q2 & -> & -> & _). rewrite !length_app. simpl. lia.
Qed.

Lemma getNextJob_nonneg now q job q' :
  _getNextJob now q = (Some job, q') ->
  Forall (fun x => 0 <= priority x) q -> Forall (fun x => 0 <= priority x) q'.
Proof.
  intros H Hnn. pose proof (getNextJob_spec now q) as Hs. rewrite H in Hs.
  destruct Hs as (q1 & q2 & -> & -> & _).
  apply Forall_app in Hnn as [H1 H2]. apply Forall_cons in H2 as [_ H2].
  apply Forall_app. split; assumption.
Qed.

(** X22.  One tick of [_processJobs] (processor registered, priorities
    non-negative) moves jobs from the queue to the workers without losing
    or inventing any: the jobs started and the jobs left add up to the
    jobs queued, [activeJobs] grows by the number started and does not
    pass [maxConcurrency], every started job is marked [processing] with
    [startedAt = now], and the tick stops only when the worker slots are
    used up or no queued job is ready. *)
Theorem processJobs_fills_free_slots now s :
  hasProcessor s = true ->
  Forall (fun x => 0 <= priority x) (queue s) ->
  let started := fst (_processJobs now s) in
  let s' := snd (_processJobs now s) in
  (length started + length (queue s') = length (queue s))%nat /\
  activeJobs s' = activeJobs s + Z.of_nat (length started) /\
  (activeJobs s <= maxConcurrency (config s) ->
   activeJobs s' <= maxConcurrency (config s)) /\
  Forall (fun job => status job = processing /\ startedAt job = Some now)
    started /\
  (maxConcurrency (config s) <= activeJobs s' \/
   Forall (fun x => ready now x = false) (queue s')).
Proof.
  intros Hp Hnn. unfold _processJobs. rewrite Hp.
  assert (Hgen : forall fuel s,
    (length (queue s) <= fuel)%nat ->
    Forall (fun x => 0 <= priority x) (queue s) ->
    (length (fst (take_jobs fuel now s))
     + length (queue (snd (take_jobs fuel now s))) = length (queue s))%nat /\
    activeJobs (snd (take_jobs fuel now s))
    = activeJobs s + Z.of_nat (length (fst (take_jobs fuel now s))) /\
    config (snd (take_jobs fuel now s)) = config s /\
    (activeJobs s <= maxConcurrency (config s) ->
     activeJobs (snd (take_jobs fuel now s)) <= maxConcurrency (config s)) /\
    Forall (fun job => status job = processing /\ startedAt job = Some now)
      (fst (take_jobs fuel now s)) /\
    (maxConcurrency (config s) <= activeJobs (snd (take_jobs fuel now s)) \/
     Forall (fun x => ready now x = false)
       (queue (snd (take_jobs fuel now s))))).
  { clear. induction fuel as [|fuel IH]; intros s Hlen Hnn.
    - simpl. destruct (queue s) eqn:Hq; [|simpl in Hlen; lia].
      split; [reflexivity|]. split; [lia|]. split; [reflexivity|].
      split; [tauto|]. split; [constructor|]. right. constructor.
    - simpl.
      destruct (Z.ltb_spec (activeJobs s) (maxConcurrency (config s)))
        as [Hfree|Hfull].
      + pose proof (getNextJob_spec now (queue s)) as Hspec.
        destruct (_getNextJob now (queue s)) as [[job|] q'] eqn:Hnext.
        * pose proof (getNextJob_length _ _ _ _ Hnext) as Hl.
          pose proof (getNextJob_nonneg _ _ _ _ Hnext Hnn) as Hnn'.
          match goal with |- context [take_jobs fuel now ?st] =>
            destruct (IH st) as (H1 & H2 & H3 & H4 & H5 & H6);
              [simpl; lia | exact Hnn' |];
            destruct (take_jobs fuel now st) as [started s2]
          end.
          simpl in *.
          split; [lia|]. split; [lia|]. split; [exact H3|].
          split; [intros _; apply H4; lia|].
          split; [constructor; [split; reflexivity | exact H5]|].
          exact H6.
        * simpl. destruct Hspec as [_ Hno].
          split; [reflexivity|]. split; [lia|]. split; [reflexivity|].
          split; [tauto|]. split; [constructor|]. right.
          rewrite Forall_forall in *. intros x Hx.
          specialize (Hno x Hx). specialize (Hnn x Hx). simpl in Hnn.
          destruct (ready now x); [|reflexivity]. specialize (Hno eq_refl). lia.
      + simpl. split; [reflexivity|]. split; [lia|]. split; [reflexivity|].
        split; [tauto|]. split; [constructor|]. left. exact Hfull. }
  destruct (Hgen (length (queue s)) s (le_n _) Hnn)
    as (H1 & H2 & H3 & H4 & H5 & H6).
  split; [exact H1|]. split; [exact H2|]. split; [exact H4|].
  split; [exact H5 | exact H6].
Qed.

Lemma processJobs_fills_free_slots_witness :
  (length (fst (_processJobs 1000 oneJob))
   + length (queue (snd (_processJobs 1000 oneJob))) = 1)%nat /\
  activeJobs (snd (_processJobs 1000 oneJob)) = 1.
Proof.
  destruct (processJobs_fills_free_slots 1000 oneJob eq_refl
              ltac:(repeat constructor; discriminate))
    as (Hjobs & Hactive & _).
  split; [exact Hjobs|]. rewrite Hactive. reflexivity.
Defined.

Lemma insertByPriority_length job q :
  length (_insertByPriority job q) = S (length q).
Proof.
  induction q as [|j q IH]; simpl; [reflexivity|].
  destruct (_ <? _); simpl; [reflexivity | rewrite IH; reflexivity].
Qed.





Lemma slice_last_spec {A : Type} (k : Z) (l : list A) :
  (exists dropped, l = dropped ++ slice_last k l) /\
  (0 < k -> length (slice_last k l) = Nat.min (Z.to_nat k) (length l)) /\
  (k = 0 -> slice_last k l = l).
Proof.
  unfold slice_last. split; [|split].
  - eexists. symmetry. apply take_drop.
  - intros Hk. destruct (Z.ltb_spec (- k) 0); [|lia].
    rewrite length_drop. lia.
  - intros ->. change (- 0 <? 0) with false. cbv iota.
    replace (Z.to_nat ((- 0) `min` Z.of_nat (length l))) with 0%nat by lia.
    reflexivity.
Qed.

(** X25.  [cleanup] keeps, of the completed jobs newer than the cut-off
    [now - maxAge], the last [keepCount] in their order (all of them when
    there are fewer); with [keepCount = 0] it keeps all of them, because
    [slice(-0)] is the whole array.  Every job kept has a completion time
    after the cut-off.  The queue, the processing map and the worker count
    are untouched. *)
Theorem cleanup_keeps_most_recent now maxAge keepCount s :
  let s' := cleanup now maxAge keepCount s in
  let recent :=
    filter (fun job => newer_than (now - maxAge) (completedAt job) = true)
      (completedJobs s) in
  (exists dropped, recent = dropped ++ completedJobs s') /\
  (0 < keepCount ->
   length (completedJobs s') = Nat.min (Z.to_nat keepCount) (length recent)) /\
  (keepCount = 0 -> completedJobs s' = recent) /\
  Forall (fun job => exists t, completedAt job = Some t /\ now - maxAge < t)
    (completedJobs s') /\
  queue s' = queue s /\ processingJobs s' = processingJobs s /\
  activeJobs s' = activeJobs s.
Proof.
  intros s' recent. subst s'. unfold cleanup. simpl. fold recent.
  destruct (slice_last_spec keepCount recent)
    as ((dropped & Hd) & Hlen & Hzero).
  split; [exists dropped; exact Hd|]. split; [exact Hlen|].
  split; [exact Hzero|]. split; [|repeat split].
  assert (Hall : Forall (fun job => exists t, completedAt job = Some t /\
                                    now - maxAge < t) recent).
  { unfold recent. apply Forall_forall. intros job Hin.
    apply list_elem_of_filter in Hin as [Hnew _].
    unfold newer_than in Hnew. destruct (completedAt job) as [t|];
      [|discriminate].
    exists t. split; [reflexivity|]. apply Z.ltb_lt. exact Hnew. }
  rewrite Hd in Hall. apply Forall_app in Hall as [_ Hall]. exact Hall.
Qed.

(** X26.  A job added under an identifier that no queued or processing
    job carries is found again by [getJob] under that identifier, exactly
    as it was built (status [queued], no attempts); the queue grows by one
    job. *)
Theorem added_job_is_found now jobId jobData options s :
  processingJobs s !! jobId = None ->
  Forall (fun job => id job <> jobId) (queue s) ->
  fst (add now jobId jobData options s) = jobId /\
  getJob jobId (snd (add now jobId jobData options s))
  = Some (new_job now jobId jobData options s) /\
  length (queue (snd (add now jobId jobData options s)))
  = S (length (queue s)).
Proof.
  intros Hp Hq. split; [reflexivity|]. split.
  - unfold getJob. simpl. rewrite Hp.
    change (_insertByPriority _ (queue s))
      with (_insertByPriority (new_job now jobId jobData options s) (queue s)).
    set (added := new_job now jobId jobData options s).
    assert (Hfind : find (fun job => bool_decide (id job = jobId))
                      (_insertByPriority added (queue s)) = Some added).
    { induction (queue s) as [|j q IH]; simpl.
      - rewrite bool_decide_eq_true_2 by reflexivity. reflexivity.
      - apply Forall_cons in Hq as [Hj Hq]. destruct (_ <? _); simpl.
        + rewrite bool_decide_eq_true_2 by reflexivity. reflexivity.
        + rewrite bool_decide_eq_false_2 by exact Hj. apply IH. exact Hq. }
    rewrite Hfind. reflexivity.
  - simpl. apply insertByPriority_length.
Qed.

Lemma added_job_is_found_witness :
  getJob "job_A" oneJob
  = Some (new_job 0 "job_A" jobDataA noOptions
            (process (create defaultConfig))).
Proof.
  refine (proj1 (proj2 (added_job_is_found 0 "job_A" jobDataA noOptions
                          (process (create defaultConfig)) _ _))).
  - apply lookup_empty.
  - constructor.
Defined.

(** X27.  The queue stays in non-increasing order of priority under
    every operation that touches it: [add], a tick of [_processJobs], the
    settling of a job (a retry included) and [cleanup]. *)
Theorem queue_stays_sorted now jobId jobData options job settled
    maxAge keepCount s :
  sorted (queue s) ->
  sorted (queue (snd (add now jobId jobData options s))) /\
  sorted (queue (snd (_processJobs now s))) /\
  sorted (queue (_processJob_settle now job settled s)) /\
  sorted (queue (cleanup now maxAge keepCount s)).
Proof.
  intros Hs. split; [apply add_keeps_sorted; exact Hs|].
  split; [|split; [apply settle_keeps_sorted; exact Hs | exact Hs]].
  unfold _processJobs. destruct (hasProcessor s); [|exact Hs].
  apply take_jobs_keeps_sorted. exact Hs.
Qed.

Lemma queue_stays_sorted_witness :
  sorted (queue (snd (add 3000 "job_C" jobDataA noOptions retryScenario))).
Proof.
  refine (proj1 (queue_stays_sorted 3000 "job_C" jobDataA noOptions jobC
                   (Throw CircuitBreaker.authFailed) 0 0 retryScenario _)).
  vm_compute. repeat constructor; discriminate.
Defined.

End EmailQueueLaws.

(** ** The delivery engine: retries, backoff, replay *)
Module EmailServiceLaws.
Import EmailService EmailServiceFacts.
Local Open Scope Z_scope.

Lemma backoff_bounds c :
  0 <= initialRetryDelay c <= maxRetryDelay c -> 1 <= retryMultiplier c ->
  forall n, 0 <= backoff c n <= backoff c (S n) /\
            backoff c (S n) <= maxRetryDelay c.
Proof.
  intros Hi Hm n. induction n as [|n IH].
  - simpl. nia.
  - destruct IH as [[H0 H1] H2]. simpl in *. nia.
Qed.

Lemma scheduled_decomp c tr :
  scheduled c tr ->
  forall before p attempt error after,
    tr = before ++ AttemptFailed p attempt error :: after ->
    attempt < maxRetries c -> retryable_is_false error = false ->
    exists rest, after = Slept (wait_after c attempt error) :: rest.
Proof.
  intros Hp before. revert tr Hp.
  induction before as [|ev before IH]; intros tr Hp p n e after -> Hn Hr.
  - simpl in Hp. destruct Hp as [Hp _]. exact (Hp Hn Hr).
  - simpl in Hp. destruct ev as [? ? ?|?].
    + destruct Hp as [_ Hp]. exact (IH _ Hp p n e after eq_refl Hn Hr).
    + exact (IH _ Hp p n e after eq_refl Hn Hr).
Qed.

Section Engine.
Context {W : Type}.
Variable providerSend :
  string -> EmailQueue.JobData -> Z -> W ->
  CircuitBreaker.Settled SendResult * W.

Lemma retry_loop_scheduled remaining :
  forall p d attempt delay (s : Service W),
  0 <= attempt -> delay = backoff (config s) (Z.to_nat attempt) ->
  Z.of_nat remaining = Z.max 0 (maxRetries (config s) - attempt) ->
  let r := retry_loop providerSend remaining p d attempt delay s in
  config (snd r) = config s /\
  exists new,
    trace (snd r) = trace s ++ new /\
    scheduled (config s) new /\
    (length (failures new) <= remaining)%nat /\
    match fst r with
    | Return (Some _) => length (sleeps new) = length (failures new)
    | Return None => new = [] /\ remaining = 0%nat
    | Throw e =>
        S (length (sleeps new)) = length (failures new) /\
        exists pre n, new = pre ++ [AttemptFailed p n e]
    end.
Proof.
  induction remaining as [|remaining IH]; intros p d attempt delay s Ha Hd Hrem;
    simpl.
  - split; [reflexivity|]. exists []. rewrite app_nil_r.
    split; [reflexivity|]. split; [exact I|]. split; [simpl; lia|].
    split; reflexivity.
  - set (s1 := note_attempt p (EmailQueue.idempotencyKey d) (attempt + 1) s).
    destruct (note_attempt_frame p (EmailQueue.idempotencyKey d)
                (attempt + 1) s) as [Hc1 Ht1].
    fold s1 in Hc1, Ht1.
    destruct (call_provider_frame providerSend p d s1) as [Hc2 Ht2].
    destruct (call_provider providerSend p d s1) as [[result|error] s2];
      simpl in Hc2, Ht2.
    + simpl. split; [congruence|]. exists []. rewrite app_nil_r.
      split; [congruence|]. split; [exact I|]. split; [simpl; lia|].
      reflexivity.
    + rewrite Hc2, Hc1.
      destruct (Z.leb_spec (maxRetries (config s)) (attempt + 1))
        as [Hlast|Hmore]; simpl.
      * split; [congruence|].
        exists [AttemptFailed p (attempt + 1) error].
        split; [congruence|]. simpl. split; [split; [intros; lia | exact I]|].
        split; [lia|]. split; [reflexivity|]. exists [], (attempt + 1).
        reflexivity.
      * destruct (retryable_is_false error) eqn:Hr; simpl.
        -- split; [congruence|].
           exists [AttemptFailed p (attempt + 1) error].
           split; [congruence|]. simpl.
           split; [split; [intros; congruence | exact I]|].
           split; [lia|]. split; [reflexivity|]. exists [], (attempt + 1).
           reflexivity.
        -- destruct (Z.ltb_spec (attempt + 1) (maxRetries (config s)));
             [|lia].
           match goal with
           | |- context [retry_loop _ _ _ _ _ ?dl ?st] =>
               destruct (IH p d (attempt + 1) dl st)
                 as [Hc (new & Ht & Hp & Hlen & Hres)]
           end.
           { lia. }
           { simpl. rewrite Hc2, Hc1, Hd.
             replace (Z.to_nat (attempt + 1)) with (S (Z.to_nat attempt))
               by lia.
             reflexivity. }
           { simpl. rewrite Hc2, Hc1. lia. }
           simpl in Hc, Ht, Hp. rewrite Hc2, Hc1 in Hp.
           split; [congruence|].
           eexists (AttemptFailed p (attempt + 1) error :: Slept _ :: new).
           split; [rewrite Ht, Ht2, Ht1; rewrite <- !app_assoc; reflexivity|].
           split.
           ++ simpl. split; [|exact Hp]. intros _ _.
              unfold wait_after.
              replace (attempt + 1 - 1) with attempt by lia.
              rewrite <- Hd. eexists. reflexivity.
           ++ split; [simpl; lia|].
              match goal with
              | |- match fst ?r with _ => _ end =>
                  destruct (fst r) as [[res|]|e]
              end; simpl.
              ** simpl in Hres. lia.
              ** destruct Hres as [_ Hz]. lia.
              ** destruct Hres as [Hn (pre & n & ->)]. split; [lia|].
                 eexists (_ :: _ :: pre), n. reflexivity.
Qed.

(** X28.  [_sendWithProvider] makes a bounded number of attempts: at most
    [maxRetries] attempts fail in one run.  If it returns a result, every
    failure was followed by a wait; if it throws, the error thrown is the
    one of the last failed attempt and every earlier failure was followed
    by a wait; it returns [undefined] only when [maxRetries] is not
    positive, and then without any attempt. *)
Theorem attempts_are_bounded providerName d (s : Service W) :
  let r := _sendWithProvider providerSend providerName d s in
  exists new,
    trace (snd r) = trace s ++ new /\
    Z.of_nat (length (failures new)) <= Z.max 0 (maxRetries (config s)) /\
    match fst r with
    | Return (Some _) => length (sleeps new) = length (failures new)
    | Return None => maxRetries (config s) <= 0 /\ new = []
    | Throw e =>
        S (length (sleeps new)) = length (failures new) /\
        exists pre n, new = pre ++ [AttemptFailed providerName n e]
    end.
Proof.
  unfold _sendWithProvider.
  destruct (retry_loop_scheduled (Z.to_nat (maxRetries (config s)))
              providerName d 0 (initialRetryDelay (config s)) s)
    as [_ (new & Ht & _ & Hlen & Hres)]; [lia | reflexivity | lia |].
  exists new. split; [exact Ht|]. split; [lia|].
  destruct (fst _) as [[res|]|e]; [exact Hres | | exact Hres].
  destruct Hres as [-> Hz]. split; [lia | reflexivity].
Qed.

(** X29.  With [0 <= initialRetryDelay <= maxRetryDelay] and a multiplier
    of at least 1: in a run of [_sendWithProvider], a failed attempt
    number [k] that is retried and carries no (non-zero) [retryAfter] is
    followed by a wait of [backoff (k - 1)], and these delays never
    decrease and never pass [maxRetryDelay]. *)
Theorem backoff_schedule_is_followed providerName d (s : Service W) :
  0 <= initialRetryDelay (config s) <= maxRetryDelay (config s) ->
  1 <= retryMultiplier (config s) ->
  (exists new,
     trace (snd (_sendWithProvider providerSend providerName d s))
     = trace s ++ new /\
     forall before p attempt error after,
       new = before ++ AttemptFailed p attempt error :: after ->
       attempt < maxRetries (config s) ->
       retryable_is_false error = false ->
       truthy (retryAfter error) = false ->
       exists rest,
         after
         = Slept (backoff (config s) (Z.to_nat (attempt - 1))) :: rest) /\
  forall n,
    0 <= backoff (config s) n <= backoff (config s) (S n) /\
    backoff (config s) (S n) <= maxRetryDelay (config s).
Proof.
  intros Hi Hm. split; [|apply backoff_bounds; assumption].
  unfold _sendWithProvider.
  destruct (retry_loop_scheduled (Z.to_nat (maxRetries (config s)))
              providerName d 0 (initialRetryDelay (config s)) s)
    as [_ (new & Ht & Hs & _)]; [lia | reflexivity | lia |].
  exists new. split; [exact Ht|].
  intros before p attempt error after Hnew Hn Hr Hfalsy.
  destruct (scheduled_decomp _ _ Hs before p attempt error after Hnew Hn Hr)
    as [rest Hrest].
  exists rest. rewrite Hrest. unfold wait_after. rewrite Hfalsy. reflexivity.
Qed.

Lemma note_attempt_ttl p key n (s : Service W) :
  IdempotencyManager.ttl (idempotency (note_attempt p key n s))
  = IdempotencyManager.ttl (idempotency s) /\
  clock (note_attempt p key n s) = clock s.
Proof.
  unfold note_attempt, IdempotencyManager.incrementAttempts,
    IdempotencyManager.update.
  pose proof (IdempotencyFacts.get_ttl (clock s) key (idempotency s)) as Hg.
  destruct (IdempotencyManager.get (clock s) key (idempotency s))
    as [[[e|]|e] m1]; simpl in *; try (split; [exact Hg | reflexivity]).
  match goal with |- context [IdempotencyManager.get ?t ?k ?m] =>
    pose proof (IdempotencyFacts.get_ttl t k m) as Hg2;
    destruct (IdempotencyManager.get t k m) as [[[e2|]|e2] m2]
  end; simpl in *; split; try reflexivity; congruence.
Qed.

Lemma call_provider_idempotency p d (s : Service W) :
  idempotency (snd (call_provider providerSend p d s)) = idempotency s.
Proof.
  unfold call_provider.
  destruct (enableCircuitBreaker (config s)).
  - destruct (CircuitBreaker.execute _ _ _ _) as [[? ?] ?]. reflexivity.
  - destruct (providerSend _ _ _ _) as [? ?]. reflexivity.
Qed.

Lemma retry_loop_ttl remaining : forall p d attempt delay (s : Service W),
  IdempotencyManager.ttl
    (idempotency (snd (retry_loop providerSend remaining p d attempt delay s)))
  = IdempotencyManager.ttl (idempotency s).
Proof.
  induction remaining as [|remaining IH]; intros p d attempt delay s; simpl;
    [reflexivity|].
  set (s1 := note_attempt p (EmailQueue.idempotencyKey d) (attempt + 1) s).
  destruct (note_attempt_ttl p (EmailQueue.idempotencyKey d) (attempt + 1) s)
    as [Hn _]. fold s1 in Hn.
  pose proof (call_provider_idempotency p d s1) as Hc.
  destruct (call_provider providerSend p d s1) as [[result|error] s2];
    simpl in Hc; simpl.
  - congruence.
  - destruct (_ || _); simpl; [congruence|].
    destruct (_ <? _); rewrite IH; simpl; congruence.
Qed.

Lemma update_ttl now key updates m :
  IdempotencyManager.ttl (snd (IdempotencyManager.update now key updates m))
  = IdempotencyManager.ttl m.
Proof.
  unfold IdempotencyManager.update.
  pose proof (IdempotencyFacts.get_ttl now key m) as Hg.
  destruct (IdempotencyManager.get now key m) as [[[e|]|e] m1]; exact Hg.
Qed.

Lemma try_providers_ttl providers : forall d lastError (s : Service W),
  IdempotencyManager.ttl
    (idempotency (snd (try_providers providerSend providers d lastError s)))
  = IdempotencyManager.ttl (idempotency s).
Proof.
  induction providers as [|p rest IH]; intros d lastError s; simpl;
    [reflexivity|].
  unfold _sendWithProvider.
  pose proof (retry_loop_ttl (Z.to_nat (maxRetries (config s))) p d 0
                (initialRetryDelay (config s)) s) as Hl.
  destruct (retry_loop providerSend _ p d 0 _ s) as [[[res|]|e] s1];
    simpl in Hl; simpl; try exact Hl.
  - destruct rest as [|next rest']; rewrite IH; simpl; [exact Hl|].
    rewrite update_ttl. exact Hl.
  - destruct (_ && _); simpl; [exact Hl|].
    destruct rest as [|next rest']; rewrite IH; simpl; [exact Hl|].
    rewrite update_ttl. exact Hl.
Qed.

Variable emailRegex_test : string -> bool.

(** X30.  With the queue switched off, a valid request submitted when the
    store holds no live entry for its key is processed inside [sendEmail]
    and leaves a terminal entry (completed or failed).  A second
    submission of the same request before that entry expires changes
    nothing in the service - no transport is called, no breaker moves, no
    wait is made - and is answered with the stored result, which for a
    delivered message is the first reply plus [completedAt]. *)
Theorem direct_duplicate_is_not_resent jobId1 jobId2 later d (s : Service W) :
  let key := EmailQueue.idempotencyKey d in
  let first := sendEmail providerSend emailRegex_test jobId1 d s in
  let second :=
    sendEmail providerSend emailRegex_test jobId2 d
      (at_clock later (snd first)) in
  enableQueue (config s) = false ->
  _validateEmailData emailRegex_test d = Return () ->
  fst (IdempotencyManager.get (clock s) key (idempotency s)) = Return None ->
  later <= clock (snd first) + IdempotencyManager.ttl (idempotency s) ->
  snd second = at_clock later (snd first) /\
  exists reply entry,
    fst first = Return reply /\
    IdempotencyManager.cache (idempotency (snd first)) !! key = Some entry /\
    IdempotencyManager.terminal entry /\
    fst second = Return (IdempotencyManager.result entry) /\
    (reply !! "status" = Some (VStr "sent") ->
     IdempotencyManager.result entry
     = <["completedAt" := VNum (clock (snd first))]> reply).
Proof.
  intros key first second Hq Hv Hget Hlater.
  pose proof (valid_has_key emailRegex_test d Hv) as Hk. fold key in Hk.
  subst second. revert Hlater.
  unfold first, sendEmail. fold key. rewrite Hv.
  destruct (IdempotencyManager.get (clock s) key (idempotency s)) as [r m]
    eqn:Hg.
  simpl in Hget. subst r. cbv zeta.
  assert (Hm : IdempotencyManager.ttl m
               = IdempotencyManager.ttl (idempotency s)).
  { pose proof (IdempotencyFacts.get_ttl (clock s) key (idempotency s)) as H.
    rewrite Hg in H. exact H. }
  cbn [config with_idempotency]. rewrite Hq.
  unfold _processEmailDirectly.
  match goal with |- context [try_providers _ ?ps ?dd ?le ?st] =>
    pose proof (try_providers_ttl ps dd le st) as Httl;
    destruct (try_providers providerSend ps dd le st) as [[res|err] s2]
  end.
  all: cbn [fst snd clock idempotency with_idempotency at_clock] in *.
  all: unfold IdempotencyManager.markAsPending in Httl.
  all: rewrite IdempotencyFacts.set_stores in Httl by exact Hk.
  all: cbn in Httl.
  all: unfold IdempotencyManager.markAsCompleted,
         IdempotencyManager.markAsFailed.
  all: rewrite IdempotencyFacts.set_stores by exact Hk.
  all: cbn [snd IdempotencyManager.cache IdempotencyManager.with_cache].
  all: intros Hlater.
  all: rewrite (IdempotencyFacts.get_live later key _ _ Hk
                  (lookup_insert_eq _ _ _))
         by (cbn; rewrite Httl, Hm; exact Hlater).
  all: cbn [IdempotencyManager.status IdempotencyManager.result].
  - split; [reflexivity|]. eexists res, _. split; [reflexivity|].
    split; [apply lookup_insert_eq|]. split; [left; reflexivity|].
    split; [reflexivity|]. intros _. reflexivity.
  - split; [reflexivity|]. eexists _, _. split; [reflexivity|].
    split; [apply lookup_insert_eq|]. split; [right; reflexivity|].
    split; [reflexivity|]. intros H. vm_compute in H. discriminate H.
Qed.

End Engine.

Lemma backoff_schedule_is_followed_witness :
  backoff (config freshService) 0 = 1000 /\
  backoff (config freshService) 1 = 2000 /\
  backoff (config freshService) 5 = 30000 /\
  backoff (config freshService) 5 <= backoff (config freshService) 6
  <= maxRetryDelay (config freshService).
Proof.
  split; [reflexivity|]. split; [reflexivity|]. split; [reflexivity|].
  destruct (proj2 (backoff_schedule_is_followed flakyTransport "primary"
                     request_r5 freshService
                     ltac:(simpl; lia) ltac:(simpl; lia)) 5%nat)
    as [[_ Hup] Hmax].
  split; assumption.
Defined.

Lemma direct_duplicate_is_not_resent_witness :
  snd (sendEmail flakyTransport anyAddress "job_2" request_r5
         (at_clock 500000
            (snd (sendEmail flakyTransport anyAddress "job_1" request_r5
                    directService))))
  = at_clock 500000
      (snd (sendEmail flakyTransport anyAddress "job_1" request_r5
              directService)).
Proof.
  refine (proj1 (direct_duplicate_is_not_resent flakyTransport anyAddress
                   "job_1" "job_2" 500000 request_r5 directService
                   _ _ _ _)).
  - reflexivity.
  - reflexivity.
  - reflexivity.
  - vm_compute. discriminate.
Defined.

End EmailServiceLaws.
